(** * RepoPacker: the zip processor (utils/zipProcessor.ts)

    A shallow embedding of the entry classifier ([shouldIgnore],
    [isTextFile]), the tree renderer ([generateTreeString]), the archive
    walker ([processZipFile]) and the document packer
    ([createMarkdownContent]), together with the properties the
    specification states about them.

    JavaScript strings are sequences of UTF-16 code units; numbers that the
    code only uses as non-negative integers are integers here (binary64 is
    exact on them far beyond any size an archive can have). *)

From Stdlib Require Import ZArith QArith Qround Floats.
From stdpp Require Import gmap list sorting strings.

Set Warnings "-register-all".
Local Open Scope N_scope.

(** ** JavaScript strings *)

(** A string value: its UTF-16 code units, in order. *)
Abbreviation jsstring := (list N).

(** The bytes of a source literal (the file is UTF-8). *)
Definition utf8_bytes (s : string) : list N :=
  Ascii.N_of_ascii <$> String.list_ascii_of_string s.

(** Decoding of a well-formed UTF-8 literal into UTF-16 code units: one unit
    for a code point below U+10000, a surrogate pair above. *)
Fixpoint utf16_of_utf8 (bs : list N) : jsstring :=
  match bs with
  | [] => []
  | b0 :: r0 =>
      if b0 <? 0x80 then b0 :: utf16_of_utf8 r0
      else if b0 <? 0xE0 then
        match r0 with
        | b1 :: r1 =>
            N.lor (N.shiftl (N.land b0 0x1F) 6) (N.land b1 0x3F)
            :: utf16_of_utf8 r1
        | _ => []
        end
      else if b0 <? 0xF0 then
        match r0 with
        | b1 :: b2 :: r2 =>
            N.lor (N.shiftl (N.land b0 0x0F) 12)
              (N.lor (N.shiftl (N.land b1 0x3F) 6) (N.land b2 0x3F))
            :: utf16_of_utf8 r2
        | _ => []
        end
      else
        match r0 with
        | b1 :: b2 :: b3 :: r3 =>
            let cp :=
              N.lor (N.shiftl (N.land b0 0x07) 18)
                (N.lor (N.shiftl (N.land b1 0x3F) 12)
                   (N.lor (N.shiftl (N.land b2 0x3F) 6) (N.land b3 0x3F))) in
            let v := cp - 0x10000 in
            (0xD800 + N.shiftr v 10) :: (0xDC00 + N.land v 0x3FF)
            :: utf16_of_utf8 r3
        | _ => []
        end
  end.

(** A string literal of the source. *)
Definition js (s : string) : jsstring := utf16_of_utf8 (utf8_bytes s).

Definition slash : N := 0x2F.
Definition dot : N := 0x2E.
Definition backtick : N := 0x60.

(** [s.split(sep)] for a separator of one code unit. The result is never
    empty: the empty string splits into one empty segment. *)
Fixpoint split (sep : N) (s : jsstring) : list jsstring :=
  match s with
  | [] => [[]]
  | c :: s' =>
      if c =? sep then [] :: split sep s'
      else
        match split sep s' with
        | seg :: segs => (c :: seg) :: segs
        | [] => [[c]]
        end
  end.

(** [String.prototype.toLowerCase] restricted to strings of ASCII code
    units, where it lowers [A]..[Z] and keeps everything else. *)
Definition ascii_lower_unit (c : N) : N :=
  if (0x41 <=? c) && (c <=? 0x5A) then c + 0x20 else c.

Definition ascii_toLowerCase (s : jsstring) : jsstring :=
  ascii_lower_unit <$> s.

(** ** The earlier revision of the classifier *)

Module Rev1.

Definition IGNORE_DIRS : gset (list N) :=
  list_to_set (js <$>
    [".git"; "node_modules"; "dist"; "build"; "coverage"; ".idea";
     ".vscode"; "__pycache__"]%string).

Definition IGNORE_FILES : gset (list N) :=
  list_to_set (js <$>
    ["package-lock.json"; "yarn.lock"; "pnpm-lock.yaml";
     ".DS_Store"]%string).

Definition shouldIgnore (path : jsstring) : bool :=
  let parts := split slash path in
  if existsb (λ part, bool_decide (part ∈ IGNORE_DIRS)) parts then true
  else
    match parts !! (length parts - 1)%nat with
    | Some filename => bool_decide (filename ∈ IGNORE_FILES)
    | None => false
    end.

End Rev1.

(** ** The classifier *)

Definition TEXT_EXTENSIONS : gset (list N) :=
  list_to_set (js <$>
    ["js"; "jsx"; "ts"; "tsx"; "json"; "css"; "scss"; "html"; "md"; "txt";
     "py"; "java"; "c"; "cpp"; "h"; "cs"; "go"; "rs"; "php"; "rb"; "sh";
     "yaml"; "yml"; "xml"; "sql"; "gitignore"; "env"; "dockerfile"; "toml";
     "gradle"; "properties"]%string).

Definition IGNORE_DIRS : gset (list N) :=
  list_to_set (js <$>
    [".git"; "node_modules"; "dist"; "build"; "coverage"; ".idea";
     ".vscode"; "__pycache__"; "bin"; "obj"]%string).

Definition IGNORE_FILES : gset (list N) :=
  list_to_set (js <$>
    ["package-lock.json"; "yarn.lock"; "pnpm-lock.yaml"; ".DS_Store";
     "thumbs.db"]%string).

(** The array literal of known configuration files without extension. *)
Definition KNOWN_FILES : list (list N) :=
  js <$> ["dockerfile"; "makefile"; "license"; "jenkinsfile";
          "vagrantfile"]%string.

(** The loop over the segments returns at the first ignored directory. *)
Definition has_ignored_dir (parts : list jsstring) : bool :=
  existsb (λ part, bool_decide (part ∈ IGNORE_DIRS)) parts.

(** [parts[parts.length - 1]] is [undefined] out of range, and no set of
    strings has [undefined]. *)
Definition shouldIgnore (path : jsstring) : bool :=
  let parts := split slash path in
  if has_ignored_dir parts then true
  else
    match parts !! (length parts - 1)%nat with
    | Some filename => bool_decide (filename ∈ IGNORE_FILES)
    | None => false
    end.

(** ** The document packer *)

Record ProcessedFile := {
  path : jsstring;
  content : jsstring;
  extension : jsstring;
}.

Definition newline : N := 0x0A.

(** A match of [/`+/] that ends: nothing when no backtick was consumed. *)
Definition emit_run (run : jsstring) : list jsstring :=
  match run with [] => [] | _ => [run] end.

(** The global scan for [/`+/g], from left to right: [run] is what the
    greedy [+] has consumed so far; it ends at the first other code unit
    or at the end of the string. *)
Fixpoint scan_backticks (run s : jsstring) : list jsstring :=
  match s with
  | [] => emit_run run
  | c :: s' =>
      if c =? backtick then scan_backticks (run ++ [c]) s'
      else emit_run run ++ scan_backticks [] s'
  end.

Definition backtick_runs (s : jsstring) : list jsstring :=
  scan_backticks [] s.

(** [content.match(/`+/g)]: the array of all matches, [null] without one. *)
Definition match_backticks (s : jsstring) : option (list jsstring) :=
  match backtick_runs s with
  | [] => None
  | matches => Some matches
  end.

(** One turn of the loop over the matches. *)
Definition raise_fence (fenceLength : nat) (m : jsstring) : nat :=
  if (fenceLength <=? length m)%nat then (length m + 1)%nat else fenceLength.

Definition fenceLength (content : jsstring) : nat :=
  match match_backticks content with
  | Some backticks => foldl raise_fence 3%nat backticks
  | None => 3%nat
  end.

(** The body of [files.forEach] in [createMarkdownContent]. *)
Definition pack_file (md : jsstring) (f : ProcessedFile) : jsstring :=
  let fence := replicate (fenceLength (content f)) backtick in
  let md := md ++ js "### " ++ path f ++ [newline] in
  let md := md ++ fence ++ extension f ++ [newline] in
  let md := md ++ content f in
  md ++ [newline] ++ fence ++ [newline; newline].

Definition createMarkdownContent
    (repoName tree : jsstring) (files : list ProcessedFile) : jsstring :=
  let md := js "# Project: " ++ repoName ++ [newline; newline] in
  let md :=
    md ++ js "## 📂 Project Structure" ++ [newline; newline] ++ js "```"
       ++ [newline] ++ tree ++ [newline] ++ js "```" ++ [newline; newline] in
  let md := md ++ js "## 💻 File Contents" ++ [newline; newline] in
  foldl pack_file md files.

(** The section of one file, on its own. *)
Definition file_section (f : ProcessedFile) : jsstring := pack_file [] f.

(** The longest match, as a length. *)
Definition longest_run (s : jsstring) : nat :=
  foldr (λ m acc, Nat.max (length m) acc) 0%nat (backtick_runs s).

(** [t] occurs in [s] as a contiguous substring. *)
Definition occurs_in (t s : jsstring) : Prop :=
  ∃ before after, s = before ++ t ++ after.

(** ** The tree renderer *)

(** An object created by [{}] and used as a map: its own enumerable
    properties. Every value stored by the renderer is again such an object,
    and each is stored under one property only, so the objects form a tree
    and are kept by value. *)
Inductive node := Node (own : gmap (list N) node).

Definition own (n : node) : gmap (list N) node := let 'Node m := n in m.

(** [Object.keys(o)], up to order: JavaScript lists integer-like keys first
    and the others by insertion, and every use below either sorts the
    result or takes its length. *)
Definition Object_keys (o : node) : list jsstring := (map_to_list (own o)).*1.

(** The comparison of the default [sort()]: strings compare by code units,
    a proper prefix before its extensions. *)
Fixpoint str_leb (a b : jsstring) : bool :=
  match a, b with
  | [], _ => true
  | _ :: _, [] => false
  | x :: a', y :: b' =>
      if x <? y then true else if y <? x then false else str_leb a' b'
  end.

Definition str_le (a b : jsstring) : Prop := str_leb a b = true.

#[export] Instance str_le_dec : RelDecision str_le :=
  λ a b, decide (str_leb a b = true).

(** The keys of an object are distinct and the order is total, so the
    sorted array does not depend on the algorithm. *)
Definition sort (keys : list jsstring) : list jsstring :=
  merge_sort str_le keys.

(** White space and line terminators, as [trim] strips them. *)
Definition is_space (c : N) : bool :=
  bool_decide (c ∈ [0x09; 0x0A; 0x0B; 0x0C; 0x0D; 0x20; 0xA0; 0x1680;
                    0x2028; 0x2029; 0x202F; 0x205F; 0x3000; 0xFEFF])
  || (0x2000 <=? c) && (c <=? 0x200A).

Fixpoint trimStart (s : jsstring) : jsstring :=
  match s with
  | c :: s' => if is_space c then trimStart s' else s
  | [] => []
  end.

Definition trim (s : jsstring) : jsstring :=
  reverse (trimStart (reverse (trimStart s))).

(** What an object without an own [__proto__] answers for that name: the
    accessor inherited from [Object.prototype]. *)
Definition PROTO : jsstring := js "__proto__".

(** The other own properties of [Object.prototype], all functions. *)
Definition OBJECT_PROTOTYPE_METHODS : list jsstring :=
  js <$> ["constructor"; "hasOwnProperty"; "isPrototypeOf";
          "propertyIsEnumerable"; "toLocaleString"; "toString"; "valueOf";
          "__defineGetter__"; "__defineSetter__"; "__lookupGetter__";
          "__lookupSetter__"]%string.

(** The objects a run can reach: the [tree] of the call, and the properties
    that assignments have added to [Object.prototype], which every object
    inherits and which outlive the call. *)
Record heap := {
  tree_root : node;
  proto_added : node;
}.

(** The variable [current]: an object below [tree], [Object.prototype]
    ([InProto []]) or an object below it, or one of its methods. *)
Inductive ref :=
  | InTree (p : list jsstring)
  | InProto (p : list jsstring)
  | Method.

Inductive completion (A : Type) :=
  | Normal (a : A)
  | TypeError (h : heap)
  | Unmodelled.
Arguments Normal {A} a.
Arguments TypeError {A} h.
Arguments Unmodelled {A}.

Definition bind {A B} (c : completion A) (k : A → completion B)
    : completion B :=
  match c with
  | Normal a => k a
  | TypeError h => TypeError h
  | Unmodelled => Unmodelled
  end.

(** The object at the end of a chain of own properties. *)
Fixpoint get_at (p : list jsstring) (o : node) : option node :=
  match p with
  | [] => Some o
  | key :: p' =>
      match own o !! key with
      | Some child => get_at p' child
      | None => None
      end
  end.

(** An update [f] of the object at the end of the chain [p], seen from
    the root [o]. *)
Fixpoint modify_at (p : list jsstring) (f : node → node) (o : node) : node :=
  match p with
  | [] => f o
  | key :: p' => Node (alter (modify_at p' f) key (own o))
  end.

(** [o[key] = {}] *)
Definition set_empty (key : jsstring) (o : node) : node :=
  Node (<[key := Node ∅]> (own o)).

(** [current[key] = {}] for [current] at the end of the chain [p]. *)
Definition add_at (p : list jsstring) (key : jsstring) (o : node) : node :=
  modify_at p (set_empty key) o.

(** What the prototype chain of an object created by [{}] answers for a
    name the object does not have itself: [__proto__] answers
    [Object.prototype], the name of a method answers the method, a property
    added to [Object.prototype] answers the object stored there. [None]
    stands for [undefined]. *)
Definition inherited (h : heap) (part : jsstring) : option ref :=
  if bool_decide (part = PROTO) then Some (InProto [])
  else if bool_decide (part ∈ OBJECT_PROTOTYPE_METHODS) then Some Method
  else
    match own (proto_added h) !! part with
    | Some _ => Some (InProto [part])
    | None => None
    end.

(** One turn of [parts.forEach]:
      [if (!current[part]) current[part] = {}; current = current[part]].
    The read [current[part]] finds own and inherited properties, and all
    the values it can find here are objects, hence truthy; only when it
    finds nothing is the property created, on [current] itself.
    [Object.prototype] has nothing above it: there [__proto__] answers
    [null], and the assignment that follows is refused with a [TypeError]
    (the prototype of [Object.prototype] cannot be set). What the
    properties of a method answer is not modelled. *)
Definition visit (st : heap * ref) (part : jsstring)
    : completion (heap * ref) :=
  let '(h, current) := st in
  match current with
  | Method => Unmodelled
  | InProto [] =>
      match own (proto_added h) !! part with
      | Some _ => Normal (h, InProto [part])
      | None =>
          if bool_decide (part = PROTO) then TypeError h
          else if bool_decide (part ∈ OBJECT_PROTOTYPE_METHODS)
          then Normal (h, Method)
          else
            Normal ({| tree_root := tree_root h;
                       proto_added := add_at [] part (proto_added h) |},
                    InProto [part])
      end
  | InProto p =>
      match get_at p (proto_added h) with
      | None => Unmodelled
      | Some o =>
          match own o !! part, inherited h part with
          | Some _, _ => Normal (h, InProto (p ++ [part]))
          | None, Some found => Normal (h, found)
          | None, None =>
              Normal ({| tree_root := tree_root h;
                         proto_added := add_at p part (proto_added h) |},
                      InProto (p ++ [part]))
          end
      end
  | InTree p =>
      match get_at p (tree_root h) with
      | None => Unmodelled
      | Some o =>
          match own o !! part, inherited h part with
          | Some _, _ => Normal (h, InTree (p ++ [part]))
          | None, Some found => Normal (h, found)
          | None, None =>
              Normal ({| tree_root := add_at p part (tree_root h);
                         proto_added := proto_added h |},
                      InTree (p ++ [part]))
          end
      end
  end.

(** [parts.forEach(...)], an exception ending it. *)
Fixpoint visit_all (parts : list jsstring) (st : heap * ref)
    : completion (heap * ref) :=
  match parts with
  | [] => Normal st
  | part :: parts' => bind (visit st part) (visit_all parts')
  end.

(** One turn of [paths.forEach]: [current] starts at [tree]. *)
Definition add_path (h : heap) (path : jsstring) : completion heap :=
  bind (visit_all (split slash path) (h, InTree []))
       (λ st, Normal (fst st)).

Fixpoint add_paths (paths : list jsstring) (h : heap) : completion heap :=
  match paths with
  | [] => Normal h
  | path :: paths' => bind (add_path h path) (add_paths paths')
  end.

(** [printTree]. The children are rendered where they sit in the object
    (as functions of the prefix they will get), and looked up by key in the
    loop over the sorted keys. *)
Fixpoint printTree (n : node) (prefix : jsstring) : jsstring :=
  let 'Node m := n in
  let child : gmap (list N) (bool * (jsstring → jsstring)) :=
    (λ c, (bool_decide (length (Object_keys c) = 0%nat), printTree c)) <$> m in
  let keys := sort (Object_keys n) in
  foldl
    (λ (output : jsstring) (entry : nat * jsstring),
       let '(index, key) := entry in
       let isLast := bool_decide (index = (length keys - 1)%nat) in
       let connector := if isLast then js "└── " else js "├── " in
       let childPrefix := if isLast then js "    " else js "│   " in
       match (child !! key : option (bool * (jsstring → jsstring))) with
       | Some (isFile, print_child) =>
           let output :=
             output ++ prefix ++ connector ++ key
                    ++ (if isFile then [] else [slash]) ++ [newline] in
           if isFile then output
           else output ++ print_child (prefix ++ childPrefix)
       | None => output
       end)
    [] (imap pair keys).

(** [generateTreeString(paths)] in a realm where [realm] holds the
    properties added so far to [Object.prototype]; the result comes with
    the properties it holds afterwards. *)
Definition generateTreeString (paths : list jsstring) (realm : node)
    : completion (jsstring * node) :=
  bind (add_paths paths {| tree_root := Node ∅; proto_added := realm |})
       (λ h, Normal (trim (printTree (tree_root h) []), proto_added h)).

(** A realm in which nothing was added to [Object.prototype]. *)
Definition fresh_realm : node := Node ∅.

(** The string a call returns, if it returns. *)
Definition returned (c : completion (jsstring * node)) : option jsstring :=
  match c with
  | Normal (output, _) => Some output
  | _ => None
  end.

(** The nested mapping of the specification: the segments of a path
    inserted in order, intermediate mappings created as needed. *)
Fixpoint trie_insert (parts : list jsstring) (n : node) : node :=
  match parts with
  | [] => n
  | part :: parts' =>
      Node (<[part := trie_insert parts' (default (Node ∅) (own n !! part))]>
              (own n))
  end.

Definition trie_of (paths : list jsstring) : node :=
  foldl (λ t path, trie_insert (split slash path) t) (Node ∅) paths.

(** A path none of whose segments names a property of [Object.prototype]. *)
Definition plain_path (path : jsstring) : Prop :=
  ∀ part, part ∈ split slash path →
          part ≠ PROTO ∧ part ∉ OBJECT_PROTOTYPE_METHODS.

(** ** The archive walker *)

(** [new TextEncoder().encode(s).length]: the length of the UTF-8 encoding
    of [s], in which a surrogate pair takes four bytes and a lone surrogate
    is replaced by U+FFFD, which takes three. *)
Definition is_high_surrogate (c : N) : bool := (0xD800 <=? c) && (c <=? 0xDBFF).
Definition is_low_surrogate (c : N) : bool := (0xDC00 <=? c) && (c <=? 0xDFFF).

Fixpoint utf8_length (s : jsstring) : Z :=
  match s with
  | [] => 0%Z
  | c :: s' =>
      if c <? 0x80 then (1 + utf8_length s')%Z
      else if c <? 0x800 then (2 + utf8_length s')%Z
      else if is_high_surrogate c then
        match s' with
        | d :: s'' =>
            if is_low_surrogate d then (4 + utf8_length s'')%Z
            else (3 + utf8_length s')%Z
        | [] => 3%Z
        end
      else (3 + utf8_length s')%Z
  end.

Record Stats := {
  fileCount : Z;
  totalSize : Z;
  tokenEstimate : Z;
}.

Record ZipResult := {
  files : list ProcessedFile;
  tree : jsstring;
  stats : Stats;
}.

(** An entry of [loadedZip.files]: its name, whether it is a directory, and
    what [async('string')] resolves to ([None] when it rejects). *)
Record ZipObject := {
  name : jsstring;
  dir : bool;
  async_string : option jsstring;
}.

Inductive exn :=
  | Error (message : jsstring)
  | Rejected
  | TreeTypeError.

Inductive outcome :=
  | Returns (r : ZipResult)
  | Throws (e : exn)
  | NotModelled.

(** The variables of the loop, and the calls of [onProgress] so far. *)
Record walk := {
  w_files : list ProcessedFile;
  w_paths : list jsstring;
  w_totalSize : Z;
  w_processedCount : Z;
  w_progress : list (Z * jsstring);
}.

(** [filename.split('.').pop() || ''] *)
Definition extension_of (filename : jsstring) : jsstring :=
  match last (split dot filename) with
  | Some [] | None => js ""
  | Some ext => ext
  end.

(** [10 + Math.floor((processedCount / totalFiles) * 80)], with the
    quotient and the product taken exactly. *)
Definition walk_progress (processedCount totalFiles : Z) : Z :=
  10 + Qfloor ((inject_Z processedCount / inject_Z totalFiles) * 80)%Q.

(** The same with the quotient and the product rounded to binary64, as
    JavaScript computes them. [binary64_floor] is the floor of a finite
    number, read off its mantissa and exponent. *)
Definition binary64_floor (x : float) : Z :=
  match Prim2SF x with
  | S754_finite sign m e =>
      let mantissa := if sign then Zneg m else Zpos m in
      match e with
      | Z0 => mantissa
      | Zpos p => (mantissa * 2 ^ Zpos p)%Z
      | Zneg p => (mantissa `div` 2 ^ Zpos p)%Z
      end
  | _ => 0%Z
  end.

Definition binary64 (count : Z) : float :=
  PrimFloat.of_uint63 (Uint63.of_Z count).

Definition walk_progress_binary64 (processedCount totalFiles : Z) : Z :=
  (10 + binary64_floor
          (PrimFloat.mul
             (PrimFloat.div (binary64 processedCount) (binary64 totalFiles))
             (binary64 80)))%Z.

(** [totalFiles > 0 && (processedCount % 5 === 0
                        || processedCount === totalFiles)] *)
Definition progress_due (totalFiles processedCount : Z) : bool :=
  (0 <? totalFiles)%Z
  && ((processedCount `mod` 5 =? 0)%Z || (processedCount =? totalFiles)%Z).

(** [Math.ceil(totalSize / 4)] *)
Definition token_estimate (totalSize : Z) : Z :=
  Qceiling (inject_Z totalSize / 4)%Q.

(** Two archives used as examples. *)
Definition scenario_A : list ZipObject :=
  [{| name := js "src/a.ts"; dir := false;
      async_string := Some (js "hello") |}].


Definition makefile_archive : list ZipObject :=
  [{| name := js "Makefile"; dir := false;
      async_string := Some (js "all:") |}].

(** An archive with a directory called [__proto__]. *)
Definition proto_archive : list ZipObject :=
  [{| name := js "__proto__/src/x.ts"; dir := false;
      async_string := Some (js "x") |};
   {| name := js "src/y.ts"; dir := false;
      async_string := Some (js "y") |}].

(** The variables when the loop over the entries starts. *)
Definition walk_start : walk :=
  {| w_files := []; w_paths := []; w_totalSize := 0; w_processedCount := 0;
     w_progress := [(5%Z, js "Чтение ZIP архива...");
                    (10%Z, js "Анализ файлов...")] |}.

(** The state in which the loop over the entries ends. *)
Definition final_walk (r : walk + walk) : walk :=
  match r with inl w | inr w => w end.

(** The sum of the UTF-8 lengths of the contents. *)
Definition utf8_total (fs : list ProcessedFile) : Z :=
  foldr (λ f acc, (utf8_length (content f) + acc)%Z) 0%Z fs.

Section Walker.

(** [String.prototype.toLowerCase] follows the Unicode case mappings and is
    a parameter here. *)
Variable toLowerCase : jsstring → jsstring.

Definition isTextFile (filename : jsstring) : bool :=
  match toLowerCase <$> last (split slash filename) with
  | None | Some [] => false
  | Some basename =>
      if bool_decide (basename ∈ KNOWN_FILES) then true
      else
        let parts := split dot basename in
        if (length parts =? 1)%nat then false
        else
          match last parts with
          | None | Some [] => false
          | Some ext => bool_decide (ext ∈ TEXT_EXTENSIONS)
          end
  end.

(** The file that an entry contributes, if it does: the entry is no
    directory, is not ignored, is a text file, and its content decodes. *)
Definition packed_entry (zipEntry : ZipObject) : option ProcessedFile :=
  if dir zipEntry then None
  else if shouldIgnore (name zipEntry) then None
  else if isTextFile (name zipEntry) then
    (λ content, {| path := name zipEntry; content := content;
                   extension := extension_of (name zipEntry) |})
      <$> async_string zipEntry
  else None.

(** One turn of the loop over [fileEntries]; [inr] when the entry's
    content is awaited and the promise rejects. *)
Definition walk_entry (totalFiles : Z) (w : walk) (zipEntry : ZipObject)
    : walk + walk :=
  let filename := name zipEntry in
  let processedCount := (w_processedCount w + 1)%Z in
  let progress :=
    if progress_due totalFiles processedCount then
      w_progress w
        ++ [(walk_progress processedCount totalFiles,
             js "Обработка: "
                ++ default (js "undefined") (last (split slash filename)))]
    else w_progress w in
  let w := {| w_files := w_files w; w_paths := w_paths w;
              w_totalSize := w_totalSize w;
              w_processedCount := processedCount;
              w_progress := progress |} in
  if dir zipEntry then inl w
  else if shouldIgnore filename then inl w
  else if isTextFile filename then
    let paths := w_paths w ++ [filename] in
    match async_string zipEntry with
    | None =>
        inr {| w_files := w_files w; w_paths := paths;
               w_totalSize := w_totalSize w;
               w_processedCount := processedCount;
               w_progress := progress |}
    | Some content =>
        let byteLength := utf8_length content in
        inl {| w_files :=
                 w_files w
                   ++ [{| path := filename; content := content;
                          extension := extension_of filename |}];
               w_paths := paths;
               w_totalSize := (w_totalSize w + byteLength)%Z;
               w_processedCount := processedCount;
               w_progress := progress |}
    end
  else inl w.

Fixpoint walk_entries (totalFiles : Z) (fileEntries : list ZipObject)
    (w : walk) : walk + walk :=
  match fileEntries with
  | [] => inl w
  | zipEntry :: rest =>
      match walk_entry totalFiles w zipEntry with
      | inl w' => walk_entries totalFiles rest w'
      | inr w' => inr w'
      end
  end.

(** [processZipFile(file, onProgress)]: [loaded] is what [zip.loadAsync]
    resolves to ([None] when it rejects), its entries in the order of
    [Object.keys(loadedZip.files)]; [realm] is as for [generateTreeString].
    The result is the list of the calls of [onProgress] and the way the
    promise settles. *)
Definition processZipFile (loaded : option (list ZipObject)) (realm : node)
    : list (Z * jsstring) * outcome :=
  let progress := [(5%Z, js "Чтение ZIP архива...")] in
  match loaded with
  | None =>
      (progress,
       Throws (Error (js "Не удалось открыть ZIP файл. Возможно он поврежден.")))
  | Some fileEntries =>
      let totalFiles := Z.of_nat (length fileEntries) in
      if (totalFiles =? 0)%Z then
        (progress ++ [(100%Z, js "Архив пустой")],
         Returns {| files := []; tree := js "(Empty Archive)";
                    stats := {| fileCount := 0; totalSize := 0;
                                tokenEstimate := 0 |} |})
      else
        let progress := progress ++ [(10%Z, js "Анализ файлов...")] in
        match
          walk_entries totalFiles fileEntries
            {| w_files := []; w_paths := []; w_totalSize := 0;
               w_processedCount := 0; w_progress := progress |}
        with
        | inr w => (w_progress w, Throws Rejected)
        | inl w =>
            match generateTreeString (w_paths w) realm with
            | Normal (tree, _) =>
                (w_progress w,
                 Returns {| files := w_files w; tree := tree;
                            stats :=
                              {| fileCount := Z.of_nat (length (w_files w));
                                 totalSize := w_totalSize w;
                                 tokenEstimate :=
                                   token_estimate (w_totalSize w) |} |})
            | TypeError _ => (w_progress w, Throws TreeTypeError)
            | Unmodelled => (w_progress w, NotModelled)
            end
        end
  end.

End Walker.

(** Whether the loop keeps the entry: it is no directory, is not ignored
    and is a text file. *)
Section Kept.

Variable toLowerCase : jsstring → jsstring.

Definition is_kept (zipEntry : ZipObject) : bool :=
  negb (dir zipEntry) && negb (shouldIgnore (name zipEntry))
  && isTextFile toLowerCase (name zipEntry).

End Kept.

(** The number of code units of the contents. *)
Definition units_total (fs : list ProcessedFile) : Z :=
  foldr (λ f acc, (Z.of_nat (length (content f)) + acc)%Z) 0%Z fs.

(** The longest fence among the sections of the files, 3 at least. *)
Definition longest_fence (fs : list ProcessedFile) : nat :=
  foldr (λ f acc, Nat.max (fenceLength (content f)) acc) 3%nat fs.

(** ** The earlier revision of the walker, the renderer and the packer *)

(** [parts.join(sep)] for a separator of one code unit. *)
Fixpoint join (sep : N) (parts : list jsstring) : jsstring :=
  match parts with
  | [] => []
  | part :: rest =>
      match rest with
      | [] => part
      | _ :: _ => part ++ sep :: join sep rest
      end
  end.

Module Rev1Packer.

Definition TEXT_EXTENSIONS : gset (list N) :=
  list_to_set (js <$>
    ["js"; "jsx"; "ts"; "tsx"; "json"; "css"; "scss"; "html"; "md"; "txt";
     "py"; "java"; "c"; "cpp"; "h"; "cs"; "go"; "rs"; "php"; "rb"; "sh";
     "yaml"; "yml"; "xml"; "sql"; "gitignore"; "env"; "dockerfile"]%string).

(** The array literal of the earlier revision. *)
Definition KNOWN_FILES : list (list N) :=
  js <$> ["dockerfile"; "makefile"; "license"]%string.

(** The flat tree: [paths.sort()] and one line per path, indented by its
    depth. ([sort] works in place on the array of the caller, which does
    not use it afterwards.) *)
Definition generateTreeString (paths : list jsstring) : jsstring :=
  foldl
    (λ (output : jsstring) (path : jsstring),
       let depth := (length (split slash path) - 1)%nat in
       let indent := concat (replicate depth (js "  ")) in
       let name := last (split slash path) in
       output ++ indent ++ js "- " ++ default (js "undefined") name
              ++ [newline])
    [] (sort paths).

(** The body of [files.forEach]: the fence is always three backticks. *)
Definition pack_file (md : jsstring) (f : ProcessedFile) : jsstring :=
  let md := md ++ js "### " ++ path f ++ [newline] in
  let md := md ++ js "```" ++ extension f ++ [newline] in
  let md := md ++ content f in
  md ++ [newline] ++ js "```" ++ [newline; newline].

Definition createMarkdownContent
    (repoName tree : jsstring) (files : list ProcessedFile) : jsstring :=
  let md := js "# Project: " ++ repoName ++ [newline; newline] in
  let md :=
    md ++ js "## 📂 Project Structure" ++ [newline; newline] ++ js "```"
       ++ [newline] ++ tree ++ [newline] ++ js "```" ++ [newline; newline] in
  let md := md ++ js "## 💻 File Contents" ++ [newline; newline] in
  foldl pack_file md files.

(** [20 + Math.floor((processedCount / totalFiles) * 70)], the quotient
    and the product rounded to binary64: with 70 the rounding shows (at 470
    of 700 the exact value is 67, the computed one 66). *)
Definition walk_progress (processedCount totalFiles : Z) : Z :=
  (20 + binary64_floor
          (PrimFloat.mul
             (PrimFloat.div (binary64 processedCount) (binary64 totalFiles))
             (binary64 70)))%Z.

Section Walker.

Variable toLowerCase : jsstring → jsstring.

(** [pop()] takes the last part off [parts], and the parts that are left
    are joined again. *)
Definition isTextFile (filename : jsstring) : bool :=
  let parts := split dot filename in
  match toLowerCase <$> last parts with
  | None | Some [] => false
  | Some ext =>
      let parts := removelast parts in
      if bool_decide (toLowerCase (join dot parts) ∈ KNOWN_FILES) then true
      else bool_decide (ext ∈ TEXT_EXTENSIONS)
  end.

(** One turn of the loop over [fileEntries]. The size counts the code
    units of the content ([content.length]). *)
Definition walk_entry (totalFiles : Z) (w : walk) (zipEntry : ZipObject)
    : walk + walk :=
  let filename := name zipEntry in
  let processedCount := (w_processedCount w + 1)%Z in
  let progress :=
    if (processedCount `mod` 10 =? 0)%Z then
      w_progress w
        ++ [(walk_progress processedCount totalFiles,
             js "Обработка: " ++ filename)]
    else w_progress w in
  let w := {| w_files := w_files w; w_paths := w_paths w;
              w_totalSize := w_totalSize w;
              w_processedCount := processedCount;
              w_progress := progress |} in
  if dir zipEntry then inl w
  else if Rev1.shouldIgnore filename then inl w
  else if isTextFile filename then
    let paths := w_paths w ++ [filename] in
    match async_string zipEntry with
    | None =>
        inr {| w_files := w_files w; w_paths := paths;
               w_totalSize := w_totalSize w;
               w_processedCount := processedCount;
               w_progress := progress |}
    | Some content =>
        inl {| w_files :=
                 w_files w
                   ++ [{| path := filename; content := content;
                          extension := extension_of filename |}];
               w_paths := paths;
               w_totalSize := (w_totalSize w + Z.of_nat (length content))%Z;
               w_processedCount := processedCount;
               w_progress := progress |}
    end
  else inl w.

Fixpoint walk_entries (totalFiles : Z) (fileEntries : list ZipObject)
    (w : walk) : walk + walk :=
  match fileEntries with
  | [] => inl w
  | zipEntry :: rest =>
      match walk_entry totalFiles w zipEntry with
      | inl w' => walk_entries totalFiles rest w'
      | inr w' => inr w'
      end
  end.

(** The variables when the loop starts. *)
Definition walk_start : walk :=
  {| w_files := []; w_paths := []; w_totalSize := 0; w_processedCount := 0;
     w_progress := [(10%Z, js "Чтение ZIP архива...");
                    (20%Z, js "Фильтрация и распаковка...")] |}.

(** [processZipFile] of the earlier revision: a rejection of [loadAsync]
    is not caught, and there is no case for the archive without entries. *)
Definition processZipFile (loaded : option (list ZipObject))
    : list (Z * jsstring) * outcome :=
  match loaded with
  | None => ([(10%Z, js "Чтение ZIP архива...")], Throws Rejected)
  | Some fileEntries =>
      let totalFiles := Z.of_nat (length fileEntries) in
      match walk_entries totalFiles fileEntries walk_start with
      | inr w => (w_progress w, Throws Rejected)
      | inl w =>
          (w_progress w,
           Returns {| files := w_files w;
                      tree := generateTreeString (w_paths w);
                      stats :=
                        {| fileCount := Z.of_nat (length (w_files w));
                           totalSize := w_totalSize w;
                           tokenEstimate :=
                             token_estimate (w_totalSize w) |} |})
      end
  end.

End Walker.

End Rev1Packer.

(** ** The page (App.tsx) *)




(** Whether [/\.zip$/i] matches: the string ends in a full stop and the
    letters z, i, p in either case (without the [u] flag, no other
    character is taken for one of these letters). *)
Definition ends_in_zip (s : jsstring) : bool :=
  match reverse s with
  | p :: i :: z :: d :: _ =>
      (d =? 0x2E) && ((z =? 0x7A) || (z =? 0x5A))
      && ((i =? 0x69) || (i =? 0x49)) && ((p =? 0x70) || (p =? 0x50))
  | _ => false
  end.

(** [file.name.replace(/\.zip$/i, '')] *)
Definition strip_zip (fileName : jsstring) : jsstring :=
  if ends_in_zip fileName then take (length fileName - 4) fileName
  else fileName.




Section Page.

Variable toLowerCase : jsstring → jsstring.


End Page.

(** * Properties *)

(** A closed decidable statement, settled by evaluation. *)
Ltac by_evaluation :=
  match goal with
  | |- ?P => apply (bool_decide_unpack P); vm_compute; exact I
  end.

(** ** Literals *)

Lemma js_literals :
  js "a/b.c" = [0x61; 0x2F; 0x62; 0x2E; 0x63]
  ∧ js "├└─│" = [0x251C; 0x2514; 0x2500; 0x2502]
  ∧ js "Жя" = [0x416; 0x44F]
  ∧ js "📂" = [0xD83D; 0xDCC2].
Proof. by vm_compute. Qed.

(** ** Splitting *)

Lemma split_nonempty sep s : split sep s ≠ [].
Proof.
  destruct s as [|c s]; simpl; [done|].
  destruct (c =? sep); [done|]. by destruct (split sep s).
Qed.

(** Splitting distributes over a separator. *)
Lemma split_app_sep sep q p :
  split sep (q ++ sep :: p) = split sep q ++ split sep p.
Proof.
  induction q as [|c q IH]; simpl.
  - by rewrite N.eqb_refl.
  - destruct (c =? sep); [by rewrite IH|].
    rewrite IH. pose proof (split_nonempty sep q).
    by destruct (split sep q).
Qed.

Lemma split_no_sep sep s : sep ∉ s → split sep s = [s].
Proof.
  induction s as [|c s IH]; intros Hs; simpl; [done|].
  apply not_elem_of_cons in Hs as [Hc Hs].
  destruct (N.eqb_spec c sep); [congruence|]. by rewrite IH.
Qed.

Lemma split_Forall (P : N → Prop) sep s :
  Forall P s → Forall (Forall P) (split sep s).
Proof.
  induction 1 as [|c s Hc Hs IH]; simpl; [by repeat constructor|].
  destruct (c =? sep); [by constructor|].
  destruct (split sep s) as [|seg segs]; [by repeat constructor|].
  inversion IH; subst. by repeat constructor.
Qed.

Lemma last_split_app_sep sep q p :
  last (split sep (q ++ sep :: p)) = last (split sep p).
Proof.
  rewrite split_app_sep. pose proof (split_nonempty sep p) as Hne.
  destruct (split sep p) as [|x l] using rev_ind; [done|].
  by rewrite app_assoc, !last_snoc.
Qed.

(** A string of separators has empty segments only. *)
Lemma split_all_sep sep s :
  Forall (λ c, c = sep) s → Forall (λ seg, seg = []) (split sep s).
Proof.
  induction 1 as [|c s -> _ IH]; simpl; [by repeat constructor|].
  rewrite N.eqb_refl. by constructor.
Qed.

(** A string has no separator, or a last one. *)
Lemma last_sep_decompose sep (f : jsstring) :
  (sep ∉ f) ∨ (∃ q b, f = q ++ sep :: b ∧ sep ∉ b).
Proof.
  induction f as [|c f IH] using rev_ind.
  - left. apply not_elem_of_nil.
  - destruct (decide (c = sep)) as [->|Hc].
    + right. exists f, []. split; [done|apply not_elem_of_nil].
    + destruct IH as [Hf|(q & b & -> & Hb)].
      * left. rewrite not_elem_of_app, not_elem_of_cons.
        split; [done|]. split; [done|apply not_elem_of_nil].
      * right. exists q, (b ++ [c]). rewrite <- app_assoc. split; [done|].
        rewrite not_elem_of_app, not_elem_of_cons.
        split; [done|]. split; [done|apply not_elem_of_nil].
Qed.

(** The last segment is what follows the last separator, or the whole
    string when there is none. *)
Lemma last_split sep f b :
  last (split sep f) = Some b →
  (sep ∉ b) ∧ (f = b ∨ ∃ q, f = q ++ sep :: b).
Proof.
  destruct (last_sep_decompose sep f) as [Hf|(q & b' & -> & Hb)].
  - rewrite split_no_sep by done. intros [= <-]. by split; [|left].
  - rewrite last_split_app_sep, split_no_sep by done.
    intros [= <-]. split; [done|]. right. by exists q.
Qed.

(** Where C2 holds: when the last segment of the path has a full stop, the
    extension is what follows its last full stop. *)
Lemma extension_of_dotted (f b b1 b2 : jsstring) :
  last (split slash f) = Some b →
  b = b1 ++ dot :: b2 → dot ∉ b2 →
  extension_of f = b2.
Proof.
  intros Hlast -> Hdot.
  assert (Hf : ∃ q, f = q ++ dot :: b2).
  { apply last_split in Hlast as [_ [->|[q ->]]]; [by exists b1|].
    exists (q ++ slash :: b1). by rewrite <- app_assoc. }
  destruct Hf as [q ->]. unfold extension_of.
  rewrite last_split_app_sep, split_no_sep by done. simpl.
  by destruct b2.
Qed.

(** ** The classifier *)

Lemma has_ignored_dir_spec parts :
  has_ignored_dir parts = true ↔ ∃ seg, seg ∈ parts ∧ seg ∈ IGNORE_DIRS.
Proof.
  unfold has_ignored_dir. rewrite existsb_exists. split.
  - intros (seg & Hin & Hd). exists seg.
    by rewrite list_elem_of_In, <- (bool_decide_eq_true (seg ∈ IGNORE_DIRS)).
  - intros (seg & Hin & Hd). exists seg.
    by rewrite <- list_elem_of_In, bool_decide_eq_true.
Qed.

Lemma has_ignored_dir_app l1 l2 :
  has_ignored_dir (l1 ++ l2) = has_ignored_dir l1 || has_ignored_dir l2.
Proof. apply existsb_app. Qed.

Lemma lookup_last_index {A} (l : list A) : l !! (length l - 1)%nat = last l.
Proof. by rewrite last_lookup, Nat.sub_1_r. Qed.

Lemma shouldIgnore_unfold p :
  shouldIgnore p =
    has_ignored_dir (split slash p)
    || match last (split slash p) with
       | Some f => bool_decide (f ∈ IGNORE_FILES)
       | None => false
       end.
Proof.
  unfold shouldIgnore. rewrite lookup_last_index.
  by destruct (has_ignored_dir _).
Qed.

(** C3, as the code has it: a path is ignored exactly when one of its
    segments is an ignored directory or its last segment (the text after
    the last slash, empty when the path ends in a slash) is an ignored
    file. Leading directories and a leading slash only add segments to look
    at, so a leading slash changes nothing; a trailing slash makes the last
    segment empty, so only the directory names still count. *)
Theorem shouldIgnore_segments (p : jsstring) :
  (shouldIgnore p = true ↔
     (∃ seg, seg ∈ split slash p ∧ seg ∈ IGNORE_DIRS)
     ∨ (∃ f, last (split slash p) = Some f ∧ f ∈ IGNORE_FILES))
  ∧ (∀ q, shouldIgnore (q ++ slash :: p)
          = has_ignored_dir (split slash q) || shouldIgnore p)
  ∧ shouldIgnore (slash :: p) = shouldIgnore p
  ∧ shouldIgnore (p ++ [slash]) = has_ignored_dir (split slash p).
Proof.
  assert (Hpre : ∀ q, shouldIgnore (q ++ slash :: p)
                      = has_ignored_dir (split slash q) || shouldIgnore p).
  { intros q. rewrite !shouldIgnore_unfold, last_split_app_sep.
    rewrite split_app_sep, has_ignored_dir_app. by rewrite orb_assoc. }
  split; [|split; [done|split]].
  - rewrite shouldIgnore_unfold, orb_true_iff, has_ignored_dir_spec.
    apply or_iff_compat_l.
    destruct (last (split slash p)) as [f|].
    + rewrite bool_decide_eq_true. split; [by exists f|].
      by intros (f' & [= ->] & ?).
    + split; [done|]. by intros (f' & [=] & ?).
  - apply (Hpre []).
  - rewrite shouldIgnore_unfold, last_split_app_sep, split_app_sep.
    rewrite has_ignored_dir_app. simpl. by rewrite !orb_false_r.
Qed.

(** C3, as stated, fails: the result depends on a trailing slash. *)
Lemma shouldIgnore_trailing_slash :
  shouldIgnore (js "yarn.lock") = true
  ∧ shouldIgnore (js "yarn.lock/") = false.
Proof. split; vm_compute; reflexivity. Qed.

Lemma Rev1_has_ignored_dir parts :
  existsb (λ part, bool_decide (part ∈ Rev1.IGNORE_DIRS)) parts = true →
  has_ignored_dir parts = true.
Proof.
  unfold has_ignored_dir. rewrite !existsb_exists.
  intros (seg & Hin & Hd). exists seg. split; [done|].
  apply bool_decide_eq_true in Hd. apply bool_decide_eq_true.
  revert Hd. unfold Rev1.IGNORE_DIRS, IGNORE_DIRS.
  rewrite !elem_of_list_to_set, !list_elem_of_fmap.
  intros (x & -> & Hx). exists x. split; [done|].
  revert Hx. rewrite !elem_of_cons, !elem_of_nil. tauto.
Qed.

(** C10: the later revision ignores every path the earlier one ignores;
    its sets of names are those of the earlier one with [bin], [obj] and
    [thumbs.db] added, and the rule is the same. *)
Theorem shouldIgnore_extends_Rev1 (p : jsstring) :
  IGNORE_DIRS = Rev1.IGNORE_DIRS ∪ {[ js "bin"; js "obj" ]}
  ∧ IGNORE_FILES = Rev1.IGNORE_FILES ∪ {[ js "thumbs.db" ]}
  ∧ (Rev1.shouldIgnore p = true → shouldIgnore p = true).
Proof.
  split; [|split].
  - unfold IGNORE_DIRS, Rev1.IGNORE_DIRS. simpl. set_solver.
  - unfold IGNORE_FILES, Rev1.IGNORE_FILES. simpl. set_solver.
  - unfold Rev1.shouldIgnore, shouldIgnore.
    destruct (existsb _ _) eqn:Hd.
    + by rewrite (Rev1_has_ignored_dir _ Hd).
    + destruct (has_ignored_dir _); [done|].
      destruct (_ !! _) as [f|]; [|done].
      rewrite !bool_decide_eq_true.
      unfold Rev1.IGNORE_FILES, IGNORE_FILES.
      rewrite !elem_of_list_to_set, !list_elem_of_fmap.
      intros (x & -> & Hx). exists x. split; [done|].
      revert Hx. rewrite !elem_of_cons, !elem_of_nil. tauto.
Qed.

(** ** The classifier of text files *)

Lemma ascii_toLowerCase_dot s : dot ∈ ascii_toLowerCase s → dot ∈ s.
Proof.
  unfold ascii_toLowerCase. rewrite list_elem_of_fmap.
  intros (c & Hc & Hin). replace dot with c; [done|].
  unfold ascii_lower_unit, dot in *.
  destruct (N.leb_spec 0x41 c), (N.leb_spec c 0x5A); simpl in Hc; lia.
Qed.

Section Classifier.

(** What is used of [toLowerCase]: on strings of ASCII code units it is
    [ascii_toLowerCase], and the lower case of a string has a full stop
    only where the string has one (no case mapping yields U+002E). *)
Variable toLowerCase : jsstring → jsstring.
Hypothesis toLowerCase_ascii :
  ∀ s, Forall (λ c, c < 0x80) s → toLowerCase s = ascii_toLowerCase s.
Hypothesis toLowerCase_dot : ∀ s, dot ∈ toLowerCase s → dot ∈ s.

(** C9: on the empty path, and on any path made of slashes only (all its
    segments are empty), both predicates answer [false]. Both are functions
    from strings to booleans: [pop()] and the index past the end yield
    [undefined], which the optional chaining and [Set.has] absorb. *)
Theorem classifiers_no_segments (p : jsstring) :
  Forall (λ c, c = slash) p →
  shouldIgnore p = false ∧ isTextFile toLowerCase p = false.
Proof.
  intros Hp. apply (split_all_sep slash) in Hp.
  pose proof (split_nonempty slash p) as Hne.
  assert (Hlast : last (split slash p) = Some []).
  { destruct (split slash p) as [|x l _] using rev_ind; [done|].
    apply Forall_app in Hp as [_ Hx]. inversion Hx; subst.
    by rewrite last_snoc. }
  split.
  - rewrite shouldIgnore_unfold, Hlast.
    apply orb_false_iff. split; [|by vm_compute].
    apply not_true_is_false. rewrite has_ignored_dir_spec.
    intros (seg & Hin & Hd).
    rewrite Forall_forall in Hp. rewrite (Hp _ Hin) in Hd.
    by vm_compute in Hd.
  - unfold isTextFile. rewrite Hlast. simpl.
    by rewrite (toLowerCase_ascii []).
Qed.

(** C4: a file name whose last segment has no full stop, and whose lower
    case is not one of the known names, is not a text file. *)
Theorem isTextFile_extensionless (f basename : jsstring) :
  last (split slash f) = Some basename →
  dot ∉ basename →
  toLowerCase basename ∉ KNOWN_FILES →
  isTextFile toLowerCase f = false.
Proof.
  intros Hlast Hdot Hknown. unfold isTextFile. rewrite Hlast. simpl.
  destruct (toLowerCase basename) as [|c lower] eqn:Hlow; [done|].
  rewrite bool_decide_eq_false_2 by done.
  rewrite split_no_sep; [done|].
  intros Hin. apply Hdot, toLowerCase_dot. by rewrite Hlow.
Qed.

End Classifier.


(** ** Fences *)

Lemma emit_run_elem r run : r ∈ emit_run run ↔ r = run ∧ run ≠ [].
Proof.
  destruct run as [|c run]; simpl.
  - rewrite elem_of_nil. by intuition.
  - rewrite list_elem_of_singleton. by intuition.
Qed.

(** Every match is a non-empty run of backticks of the string. *)
Lemma scan_backticks_sound s : ∀ run r,
  Forall (λ c, c = backtick) run →
  r ∈ scan_backticks run s →
  Forall (λ c, c = backtick) r ∧ r ≠ [] ∧ occurs_in r (run ++ s).
Proof.
  induction s as [|c s IH]; intros run r Hrun; simpl.
  - rewrite emit_run_elem. intros [-> Hne].
    repeat split; [done..|]. exists [], []. by rewrite app_nil_r.
  - destruct (N.eqb_spec c backtick) as [->|Hc].
    + intros Hr. apply IH in Hr.
      * by rewrite <- app_assoc in Hr.
      * apply Forall_app. by repeat constructor.
    + rewrite elem_of_app, emit_run_elem. intros [[-> Hne]|Hr].
      * repeat split; [done..|]. by exists [], (c :: s).
      * apply (IH []) in Hr as (Hbt & Hne & before & after & Hs); [|done].
        repeat split; [done..|].
        exists (run ++ c :: before), after.
        simpl in Hs. rewrite Hs. by rewrite <- app_assoc.
Qed.



Lemma raise_fence_max n m : raise_fence n m = Nat.max n (S (length m)).
Proof. unfold raise_fence. destruct (Nat.leb_spec n (length m)); lia. Qed.

Lemma foldl_raise_fence ms : ∀ n,
  (1 ≤ n)%nat →
  foldl raise_fence n ms
    = Nat.max n (S (foldr (λ m acc, Nat.max (length m) acc) 0%nat ms)).
Proof.
  induction ms as [|m ms IH]; intros n Hn; simpl; [lia|].
  rewrite IH, raise_fence_max by (rewrite raise_fence_max; lia). lia.
Qed.

Lemma fenceLength_fold s :
  fenceLength s = foldl raise_fence 3%nat (backtick_runs s).
Proof.
  unfold fenceLength, match_backticks. by destruct (backtick_runs s).
Qed.

Lemma fenceLength_max s : fenceLength s = Nat.max 3 (S (longest_run s)).
Proof. rewrite fenceLength_fold. apply foldl_raise_fence. lia. Qed.


Lemma pack_file_section md f : pack_file md f = md ++ file_section f.
Proof.
  unfold file_section, pack_file. cbv zeta.
  rewrite app_nil_l. by rewrite <- !app_assoc.
Qed.

Lemma foldl_pack_file files : ∀ md,
  foldl pack_file md files = md ++ concat (file_section <$> files).
Proof.
  induction files as [|f files IH]; intros md; simpl.
  - by rewrite app_nil_r.
  - by rewrite IH, pack_file_section, <- app_assoc.
Qed.


(** Every match of [/`+/g] is a non-empty run of backticks of the content. *)
Lemma backtick_runs_sound s r :
  r ∈ backtick_runs s →
  r = replicate (length r) backtick ∧ r ≠ [] ∧ occurs_in r s.
Proof.
  intros Hr. apply scan_backticks_sound in Hr as (Hbt & Hne & Hocc); [|done].
  repeat split; [|done..].
  clear -Hbt. induction Hbt as [|c r -> _ IH]; simpl; [done|]. by rewrite <- IH.
Qed.

(** Scenario D: in one document, the file with a line of four backticks is
    fenced by five, its sibling by three. *)
Lemma createMarkdownContent_scenario_D :
  createMarkdownContent (js "repo") (js "tree")
    [ {| path := js "a.md"; content := js "````"; extension := js "md" |};
      {| path := js "b.ts"; content := js "let x = `y`;"; extension := js "ts" |} ]
  = js "# Project: repo" ++ [newline; newline]
      ++ js "## 📂 Project Structure" ++ [newline; newline]
      ++ js "```" ++ [newline] ++ js "tree" ++ [newline]
      ++ js "```" ++ [newline; newline]
      ++ js "## 💻 File Contents" ++ [newline; newline]
      ++ js "### a.md" ++ [newline] ++ js "`````md" ++ [newline]
      ++ js "````" ++ [newline] ++ js "`````" ++ [newline; newline]
      ++ js "### b.ts" ++ [newline] ++ js "```ts" ++ [newline]
      ++ js "let x = `y`;" ++ [newline] ++ js "```" ++ [newline; newline].
Proof. vm_compute. reflexivity. Qed.

(** ** The order of the keys *)

Lemma str_leb_total a : ∀ b, str_leb a b = true ∨ str_leb b a = true.
Proof.
  induction a as [|x a IH]; intros [|y b]; simpl; auto.
  destruct (N.ltb_spec x y), (N.ltb_spec y x); auto; lia.
Qed.

Lemma str_leb_trans a : ∀ b c,
  str_leb a b = true → str_leb b c = true → str_leb a c = true.
Proof.
  induction a as [|x a IH]; intros [|y b] [|z c]; simpl; try done.
  destruct (N.ltb_spec x y), (N.ltb_spec y x), (N.ltb_spec y z),
    (N.ltb_spec z y), (N.ltb_spec x z), (N.ltb_spec z x);
    try done; try lia.
  apply IH.
Qed.

Lemma str_leb_antisym a : ∀ b,
  str_leb a b = true → str_leb b a = true → a = b.
Proof.
  induction a as [|x a IH]; intros [|y b]; simpl; try done.
  destruct (N.ltb_spec x y), (N.ltb_spec y x); try done; try lia.
  intros Hab Hba. f_equal; [lia|by apply IH].
Qed.

#[export] Instance str_le_total : Total str_le.
Proof. intros a b. apply str_leb_total. Qed.

#[export] Instance str_le_trans : Transitive str_le.
Proof. intros a b c. apply str_leb_trans. Qed.

#[export] Instance str_le_antisym : AntiSymm (=) str_le.
Proof. intros a b. apply str_leb_antisym. Qed.

(** The keys are rendered in ascending order of their code units, and any
    sorted arrangement of them is this one. *)
Lemma sort_sorted keys :
  Sorted str_le (sort keys) ∧ sort keys ≡ₚ keys
  ∧ ∀ l, Sorted str_le l → l ≡ₚ keys → l = sort keys.
Proof.
  unfold sort. split; [apply Sorted_merge_sort, _|].
  split; [apply merge_sort_Permutation|].
  intros l Hl Hperm. apply (Sorted_unique str_le); [done| |].
  - apply Sorted_merge_sort, _.
  - by rewrite Hperm, merge_sort_Permutation.
Qed.

(** ** The tree renderer *)

Lemma node_eta n : Node (own n) = n.
Proof. by destruct n. Qed.

Lemma get_at_app p q t : get_at (p ++ q) t = get_at p t ≫= get_at q.
Proof.
  revert t. induction p as [|k p IH]; intros t; simpl; [done|].
  destruct (own t !! k); [apply IH|done].
Qed.

Lemma modify_at_ext p f g : ∀ t sub,
  get_at p t = Some sub → f sub = g sub → modify_at p f t = modify_at p g t.
Proof.
  induction p as [|k p IH]; intros t sub; simpl.
  - by intros [= ->].
  - destruct (own t !! k) as [c|] eqn:Hk; [|done]. intros Hsub Hfg.
    f_equal. apply alter_ext. intros x Hx.
    rewrite Hk in Hx. injection Hx as <-. by apply (IH _ sub).
Qed.

Lemma modify_at_id p f t sub :
  get_at p t = Some sub → f sub = sub → modify_at p f t = t.
Proof.
  revert t. induction p as [|k p IH]; intros t; simpl.
  - by intros [= ->].
  - destruct (own t !! k) as [c|] eqn:Hk; [|done]. intros Hsub Hf.
    rewrite alter_id; [apply node_eta|].
    intros x Hx. rewrite Hk in Hx. injection Hx as <-. by apply IH.
Qed.

Lemma modify_at_app p q f t :
  modify_at (p ++ q) f t = modify_at p (modify_at q f) t.
Proof.
  revert t. induction p as [|k p IH]; intros t; simpl; [done|].
  f_equal. apply alter_ext. intros x _. apply IH.
Qed.

Lemma modify_at_compose p f g t :
  modify_at p g (modify_at p f t) = modify_at p (λ o, g (f o)) t.
Proof.
  revert t. induction p as [|k p IH]; intros t; simpl; [done|].
  f_equal. rewrite alter_alter_eq. apply alter_ext. intros x _. apply IH.
Qed.

Lemma get_at_modify p f t sub :
  get_at p t = Some sub → get_at p (modify_at p f t) = Some (f sub).
Proof.
  revert t. induction p as [|k p IH]; intros t; simpl.
  - by intros [= ->].
  - destruct (own t !! k) as [c|] eqn:Hk; [|done]. intros Hsub.
    rewrite lookup_alter_eq, Hk. simpl. by apply IH.
Qed.

(** What [trie_insert] does below an existing and below a new key. *)
Lemma trie_insert_cons_Some part parts o c :
  own o !! part = Some c →
  trie_insert (part :: parts) o = modify_at [part] (trie_insert parts) o.
Proof.
  intros Hc. simpl. rewrite Hc. simpl. f_equal.
  apply map_eq. intros k. rewrite lookup_insert, lookup_alter.
  case_decide; subst; by rewrite ?Hc.
Qed.

Lemma trie_insert_cons_None part parts o :
  own o !! part = None →
  trie_insert (part :: parts) o
    = modify_at [part] (trie_insert parts) (set_empty part o).
Proof.
  intros Hc. simpl. rewrite Hc. simpl. by rewrite alter_insert_eq.
Qed.

(** A segment that names no property of [Object.prototype], looked up in a
    realm that added none, is found on the object itself or not at all. *)
Lemma visit_plain part p t sub :
  part ≠ PROTO → part ∉ OBJECT_PROTOTYPE_METHODS →
  get_at p t = Some sub →
  visit ({| tree_root := t; proto_added := Node ∅ |}, InTree p) part
    = Normal ({| tree_root :=
                   match own sub !! part with
                   | Some _ => t
                   | None => add_at p part t
                   end;
                 proto_added := Node ∅ |},
              InTree (p ++ [part])).
Proof.
  intros Hproto Hmeth Hsub. unfold visit, inherited. simpl. rewrite Hsub.
  destruct (own sub !! part); [done|].
  rewrite !bool_decide_eq_false_2 by done.
  by rewrite lookup_empty.
Qed.

Lemma visit_all_cons part parts st :
  visit_all (part :: parts) st = bind (visit st part) (visit_all parts).
Proof. done. Qed.

Lemma visit_all_plain parts : ∀ p t sub,
  Forall (λ part, part ≠ PROTO ∧ part ∉ OBJECT_PROTOTYPE_METHODS) parts →
  get_at p t = Some sub →
  visit_all parts ({| tree_root := t; proto_added := Node ∅ |}, InTree p)
    = Normal ({| tree_root := modify_at p (trie_insert parts) t;
                 proto_added := Node ∅ |},
              InTree (p ++ parts)).
Proof.
  induction parts as [|part parts IH]; intros p t sub Hplain Hsub.
  - simpl. rewrite app_nil_r. by rewrite (modify_at_id p _ t sub).
  - inversion Hplain as [|? ? [Hproto Hmeth] Hrest]; subst.
    rewrite visit_all_cons, (visit_plain part p t sub) by done.
    cbn [bind].
    replace (p ++ part :: parts) with ((p ++ [part]) ++ parts)
      by by rewrite <- app_assoc.
    destruct (own sub !! part) as [c|] eqn:Hc.
    + rewrite (IH _ _ c) by (by rewrite ?get_at_app, ?Hsub; simpl; rewrite ?Hc).
      do 3 f_equal. rewrite modify_at_app.
      apply (modify_at_ext _ _ _ _ sub); [done|].
      by rewrite (trie_insert_cons_Some _ _ _ c).
    + rewrite (IH _ _ (Node ∅)).
      * do 3 f_equal. unfold add_at.
        rewrite modify_at_app, modify_at_compose.
        apply (modify_at_ext _ _ _ _ sub); [done|].
        by rewrite trie_insert_cons_None.
      * done.
      * rewrite get_at_app. unfold add_at.
        rewrite (get_at_modify _ _ _ sub) by done. simpl.
        by rewrite lookup_insert_eq.
Qed.

Lemma plain_path_Forall path :
  plain_path path →
  Forall (λ part, part ≠ PROTO ∧ part ∉ OBJECT_PROTOTYPE_METHODS)
         (split slash path).
Proof. intros Hp. apply Forall_forall. intros part Hin. by apply Hp. Qed.

Lemma add_paths_plain paths : ∀ t,
  Forall plain_path paths →
  add_paths paths {| tree_root := t; proto_added := Node ∅ |}
    = Normal {| tree_root :=
                  foldl (λ t path, trie_insert (split slash path) t) t paths;
                proto_added := Node ∅ |}.
Proof.
  induction paths as [|path paths IH]; intros t Hplain; simpl; [done|].
  inversion Hplain as [|? ? Hpath Hrest]; subst.
  unfold add_path.
  rewrite (visit_all_plain _ [] t t) by (by try apply plain_path_Forall).
  simpl. by apply IH.
Qed.

(** On paths free of the names of [Object.prototype], in a realm that has
    added nothing to it, the call renders the nested mapping of the paths
    and adds nothing either. *)
Lemma generateTreeString_plain paths :
  Forall plain_path paths →
  generateTreeString paths fresh_realm
    = Normal (trim (printTree (trie_of paths) []), fresh_realm).
Proof.
  intros Hplain. unfold generateTreeString, fresh_realm.
  by rewrite add_paths_plain.
Qed.

(** Insertions into the nested mapping commute. *)
Lemma trie_insert_comm p : ∀ q t,
  trie_insert p (trie_insert q t) = trie_insert q (trie_insert p t).
Proof.
  induction p as [|a p IH]; intros q t; [done|].
  destruct q as [|b q]; [done|]. simpl.
  destruct (decide (a = b)) as [->|Hab].
  - rewrite !lookup_insert_eq, !insert_insert_eq. simpl. by rewrite IH.
  - rewrite !lookup_insert_ne by done.
    by rewrite insert_insert_ne.
Qed.

Lemma trie_of_perm paths1 paths2 :
  paths1 ≡ₚ paths2 → trie_of paths1 = trie_of paths2.
Proof.
  intros Hperm. unfold trie_of. generalize (Node ∅).
  induction Hperm as [|x l1 l2 _ IH|x y l|l1 l2 l3 _ IH1 _ IH2];
    intros t; simpl.
  - done.
  - apply IH.
  - by rewrite trie_insert_comm.
  - by rewrite IH1.
Qed.

(** Where C7 holds: on paths free of the names of [Object.prototype], and
    with nothing added to it beforehand, the output does not depend on the
    order of the paths, and the realm is left as it was. *)
Lemma generateTreeString_plain_perm paths1 paths2 :
  Forall plain_path paths1 → paths1 ≡ₚ paths2 →
  generateTreeString paths1 fresh_realm = generateTreeString paths2 fresh_realm
  ∧ ∃ output, generateTreeString paths1 fresh_realm
              = Normal (output, fresh_realm).
Proof.
  intros Hplain Hperm.
  rewrite !generateTreeString_plain; [|by rewrite <- Hperm|done].
  rewrite (trie_of_perm _ _ Hperm). eauto.
Qed.

(** C7 fails on the code: a directory called [__proto__] makes the
    lookup [current[part]] answer [Object.prototype], what lies below it is
    added there, and every object then inherits it. With the two paths in
    one order the tree is empty, in the other it shows [src/y.ts]; and the
    first call leaves [src] on [Object.prototype] for the calls to come. *)
Theorem generateTreeString_order_dependent :
  [js "__proto__/src/x.ts"; js "src/y.ts"]
    ≡ₚ [js "src/y.ts"; js "__proto__/src/x.ts"]
  ∧ returned (generateTreeString
                [js "__proto__/src/x.ts"; js "src/y.ts"] fresh_realm)
    = Some (js "")
  ∧ returned (generateTreeString
                [js "src/y.ts"; js "__proto__/src/x.ts"] fresh_realm)
    = Some (js "└── src/" ++ [newline] ++ js "    └── y.ts")
  ∧ returned (generateTreeString [js "src/y.ts"] fresh_realm)
    = Some (js "└── src/" ++ [newline] ++ js "    └── y.ts")
  ∧ (∀ output realm,
       generateTreeString [js "__proto__/src/x.ts"] fresh_realm
         = Normal (output, realm) →
       returned (generateTreeString [js "src/y.ts"] realm) = Some (js "")).
Proof.
  split; [apply perm_swap|].
  split; [by vm_compute|]. split; [by vm_compute|]. split; [by vm_compute|].
  intros output realm.
  destruct (generateTreeString [js "__proto__/src/x.ts"] fresh_realm)
    as [[o r]| |] eqn:Hcall; [|done..].
  intros [= <- <-]. vm_compute in Hcall. injection Hcall as <- <-.
  by vm_compute.
Qed.

(** ** Arithmetic of the walker *)

Lemma walk_progress_div k n :
  (0 < n)%Z → walk_progress k n = (10 + (k * 80) `div` n)%Z.
Proof.
  intros Hn. unfold walk_progress. f_equal.
  rewrite Zdiv_Qdiv. apply Qfloor_comp.
  rewrite inject_Z_mult. change (inject_Z 80) with 80%Q.
  field. intros H. apply (Qeq_bool_neq (inject_Z n) 0); [|done].
  unfold Qeq_bool, inject_Z. simpl. apply Z.eqb_neq. lia.
Qed.

Lemma walk_progress_mono k k' n :
  (0 < n)%Z → (k ≤ k')%Z → (walk_progress k n ≤ walk_progress k' n)%Z.
Proof.
  intros Hn Hk. rewrite !walk_progress_div by done.
  apply Zplus_le_compat_l, Z.div_le_mono; lia.
Qed.

Lemma walk_progress_range k n :
  (0 ≤ k ≤ n)%Z → (0 < n)%Z → (10 ≤ walk_progress k n ≤ 90)%Z.
Proof.
  intros Hk Hn. rewrite walk_progress_div by done.
  assert (0 ≤ (k * 80) `div` n)%Z by (apply Z.div_pos; lia).
  assert ((k * 80) `div` n ≤ (80 * n) `div` n)%Z
    by (apply Z.div_le_mono; lia).
  rewrite Z.div_mul in * by lia. lia.
Qed.

Lemma walk_progress_last n : (0 < n)%Z → walk_progress n n = 90%Z.
Proof.
  intros Hn. rewrite walk_progress_div by done.
  rewrite (Z.mul_comm n), Z.div_mul by lia. done.
Qed.

(** The exact value is the one JavaScript computes, on every archive of up
    to 500 entries. *)
Lemma walk_progress_binary64_agrees k n :
  (1 ≤ k ≤ n)%Z → (n ≤ 500)%Z →
  walk_progress_binary64 k n = walk_progress k n.
Proof.
  intros Hk Hn.
  assert (Hall :
    forallb (λ n, forallb (λ k, (walk_progress_binary64 k n
                                 =? walk_progress k n)%Z) (seqZ 1 n))
            (seqZ 1 500) = true) by (vm_compute; reflexivity).
  rewrite forallb_forall in Hall.
  assert (Hin : In n (seqZ 1 500)) by (apply list_elem_of_In, elem_of_seqZ; lia).
  apply Hall in Hin. rewrite forallb_forall in Hin.
  apply Z.eqb_eq, Hin, list_elem_of_In, elem_of_seqZ. lia.
Qed.




Lemma progress_due_spec n k :
  (0 < n)%Z → progress_due n k = true ↔ (k `mod` 5 = 0 ∨ k = n)%Z.
Proof.
  intros Hn. unfold progress_due.
  rewrite andb_true_iff, orb_true_iff, Z.ltb_lt, !Z.eqb_eq. tauto.
Qed.

(** The byte length is not the number of code units. *)
Lemma utf8_length_not_length :
  utf8_length (js "é") = 2%Z ∧ length (js "é") = 1%nat
  ∧ utf8_length (js "📂") = 4%Z ∧ length (js "📂") = 2%nat.
Proof. by vm_compute. Qed.

(** ** The archive walker *)

Section WalkerProperties.

Variable toLowerCase : jsstring → jsstring.

(** Every turn counts the entry and reports progress when it is due. *)
Lemma walk_entry_progress n w e :
  let w' := final_walk (walk_entry toLowerCase n w e) in
  w_processedCount w' = (w_processedCount w + 1)%Z
  ∧ (w_progress w').*1
    = (w_progress w).*1
        ++ (if progress_due n (w_processedCount w + 1)
            then [walk_progress (w_processedCount w + 1) n] else []).
Proof.
  unfold walk_entry.
  destruct (dir e), (shouldIgnore (name e)),
    (isTextFile toLowerCase (name e)), (async_string e),
    (progress_due n (w_processedCount w + 1));
    simpl; rewrite ?fmap_app, ?app_nil_r; done.
Qed.

(** A turn that completes adds the file of the entry, and its size. *)
Lemma walk_entry_files n w e w' :
  walk_entry toLowerCase n w e = inl w' →
  w_files w' = w_files w ++ option_list (packed_entry toLowerCase e)
  ∧ w_paths w' = w_paths w ++ (path <$> option_list (packed_entry toLowerCase e))
  ∧ w_totalSize w'
    = (w_totalSize w + utf8_total (option_list (packed_entry toLowerCase e)))%Z.
Proof.
  unfold walk_entry, packed_entry, utf8_total.
  destruct (dir e), (shouldIgnore (name e)),
    (isTextFile toLowerCase (name e)), (async_string e);
    intros [= <-]; simpl; rewrite ?app_nil_r; (split; [done|split; [done|lia]]).
Qed.

Lemma utf8_total_app fs1 fs2 :
  utf8_total (fs1 ++ fs2) = (utf8_total fs1 + utf8_total fs2)%Z.
Proof.
  unfold utf8_total. induction fs1 as [|f fs1 IH]; simpl; [done|].
  rewrite IH. lia.
Qed.

Lemma walk_entries_files n entries : ∀ w w',
  walk_entries toLowerCase n entries w = inl w' →
  w_files w' = w_files w ++ omap (packed_entry toLowerCase) entries
  ∧ w_paths w' = w_paths w ++ (path <$> omap (packed_entry toLowerCase) entries)
  ∧ w_totalSize w'
    = (w_totalSize w + utf8_total (omap (packed_entry toLowerCase) entries))%Z.
Proof.
  induction entries as [|e entries IH]; intros w w'; simpl.
  - intros [= <-]. rewrite !app_nil_r. unfold utf8_total. simpl.
    split; [done|split; [done|lia]].
  - destruct (walk_entry toLowerCase n w e) as [w1|w1] eqn:He; [|done].
    intros Hrest. apply IH in Hrest as (Hf & Hp & Hs).
    apply walk_entry_files in He as (Hf1 & Hp1 & Hs1).
    rewrite Hf, Hp, Hs, Hf1, Hp1, Hs1.
    destruct (packed_entry toLowerCase e) as [f|]; simpl;
      rewrite <- ?app_assoc, ?app_nil_r, ?utf8_total_app; simpl;
      (split; [done|split; [done|]]); unfold utf8_total; simpl;
      change (list_omap _ _ (packed_entry toLowerCase) entries)
        with (omap (packed_entry toLowerCase) entries); lia.
Qed.

(** The percentages reported by the loop: [walk_progress] of the count of
    every entry visited whose count is a multiple of five or the total. *)
Lemma walk_entries_progress n entries : ∀ w,
  (0 < n)%Z →
  ∃ m : nat,
    (m ≤ length entries)%nat
    ∧ (∀ w', walk_entries toLowerCase n entries w = inl w' →
             m = length entries)
    ∧ (w_progress (final_walk (walk_entries toLowerCase n entries w))).*1
      = (w_progress w).*1
          ++ ((λ k, walk_progress k n)
                <$> filter (λ k, (k `mod` 5 = 0 ∨ k = n)%Z)
                      (seqZ (w_processedCount w + 1) (Z.of_nat m))).
Proof.
  induction entries as [|e entries IH]; intros w Hn.
  - exists 0%nat. simpl. by rewrite app_nil_r.
  - pose proof (walk_entry_progress n w e) as [Hcount Hlog].
    assert (Hone :
      (if progress_due n (w_processedCount w + 1)
       then [walk_progress (w_processedCount w + 1) n] else [])
      = (λ k, walk_progress k n)
          <$> filter (λ k, (k `mod` 5 = 0 ∨ k = n)%Z)
                [(w_processedCount w + 1)%Z]).
    { rewrite filter_cons, filter_nil.
      destruct (progress_due n _) eqn:Hdue.
      - apply progress_due_spec in Hdue; [|done]. by rewrite decide_True.
      - rewrite decide_False; [done|].
        rewrite <- progress_due_spec by done. by rewrite Hdue. }
    simpl. destruct (walk_entry toLowerCase n w e) as [w1|w1]; simpl in *.
    + destruct (IH w1 Hn) as (m & Hm & Hall & Hrest).
      exists (S m). split; [lia|]. split.
      { intros w' Hw'. by rewrite (Hall w' Hw'). }
      rewrite Hrest, Hlog, Hone, Hcount, <- app_assoc, <- fmap_app.
      rewrite <- filter_app. do 3 f_equal.
      rewrite (seqZ_cons _ (Z.of_nat (S m))) by lia.
      simpl. f_equal. f_equal; lia.
    + exists 1%nat. split; [lia|]. split; [done|].
      by rewrite Hlog, Hone.
Qed.

(** A run on an archive with entries. *)
Lemma processZipFile_nonempty e entries realm :
  processZipFile toLowerCase (Some (e :: entries)) realm
  = match
      walk_entries toLowerCase (Z.of_nat (length (e :: entries)))
        (e :: entries) walk_start
    with
    | inr w => (w_progress w, Throws Rejected)
    | inl w =>
        match generateTreeString (w_paths w) realm with
        | Normal (tree, _) =>
            (w_progress w,
             Returns {| files := w_files w; tree := tree;
                        stats :=
                          {| fileCount := Z.of_nat (length (w_files w));
                             totalSize := w_totalSize w;
                             tokenEstimate :=
                               token_estimate (w_totalSize w) |} |})
        | TypeError _ => (w_progress w, Throws TreeTypeError)
        | Unmodelled => (w_progress w, NotModelled)
        end
    end.
Proof.
  unfold processZipFile.
  replace (Z.of_nat (length (e :: entries)) =? 0)%Z with false
    by (symmetry; apply Z.eqb_neq; simpl; lia).
  reflexivity.
Qed.

Lemma processZipFile_log e entries realm :
  (processZipFile toLowerCase (Some (e :: entries)) realm).1
  = w_progress
      (final_walk
         (walk_entries toLowerCase (Z.of_nat (length (e :: entries)))
            (e :: entries) walk_start)).
Proof.
  rewrite processZipFile_nonempty.
  destruct (walk_entries _ _ _ _) as [w|w]; [|done].
  by destruct (generateTreeString _ _) as [[? ?]| |].
Qed.

Lemma StronglySorted_seqZ a (m : nat) : StronglySorted Z.le (seqZ a (Z.of_nat m)).
Proof.
  revert a. induction m as [|m IH]; intros a.
  - rewrite seqZ_nil by lia. constructor.
  - rewrite seqZ_cons by lia. constructor.
    + replace (Z.pred (Z.of_nat (S m))) with (Z.of_nat m) by lia. apply IH.
    + apply Forall_seqZ. intros k Hk. lia.
Qed.

Lemma StronglySorted_filter {A} (R : relation A) (P : A → Prop)
    `{∀ x, Decision (P x)} l :
  StronglySorted R l → StronglySorted R (filter P l).
Proof.
  induction 1 as [|x l Hl IH Hx]; [constructor|].
  rewrite filter_cons. destruct (decide (P x)); [|done].
  constructor; [done|]. rewrite Forall_forall in Hx |- *.
  intros y Hy. apply list_elem_of_filter in Hy as [_ Hy]. by apply Hx.
Qed.

(** The percentages of the loop, in order and in range. *)
Lemma loop_percents n m :
  (0 < n)%Z → (0 ≤ m ≤ n)%Z →
  let loop :=
    (λ k, walk_progress k n)
      <$> filter (λ k, (k `mod` 5 = 0 ∨ k = n)%Z) (seqZ 1 m) in
  StronglySorted Z.le loop ∧ Forall (λ p, (10 ≤ p ≤ 90)%Z) loop.
Proof.
  intros Hn Hm loop. subst loop. split.
  - apply StronglySorted_fmap with (R1 := Z.le).
    { intros x y. by apply walk_progress_mono. }
    apply StronglySorted_filter.
    replace m with (Z.of_nat (Z.to_nat m)) by lia.
    apply StronglySorted_seqZ.
  - apply Forall_fmap, Forall_forall. intros k Hk.
    apply list_elem_of_filter in Hk as [_ Hk].
    apply elem_of_seqZ in Hk. unfold compose.
    apply walk_progress_range; lia.
Qed.

(** C8: the percentages passed to [onProgress] during one run never
    decrease and lie between 0 and 100. A run that reaches the loop
    reports 5, then 10, then for every entry visited whose count is a
    multiple of five or the number of entries, 10 plus the share of 80
    that the count has reached: between 10 and 90, and 90 at the last
    entry. All entries are visited unless the content of one cannot be
    read. *)
Theorem processZipFile_progress
    (loaded : option (list ZipObject)) (realm : node) :
  let percents := (processZipFile toLowerCase loaded realm).1.*1 in
  Sorted Z.le percents
  ∧ Forall (λ p, (0 ≤ p ≤ 100)%Z) percents
  ∧ ∀ fileEntries, loaded = Some fileEntries → fileEntries ≠ [] →
      let n := Z.of_nat (length fileEntries) in
      ∃ m : Z,
        (0 ≤ m ≤ n)%Z
        ∧ ((processZipFile toLowerCase loaded realm).2 ≠ Throws Rejected →
           m = n)
        ∧ percents
          = 5%Z :: 10%Z
              :: ((λ k, walk_progress k n)
                    <$> filter (λ k, (k `mod` 5 = 0 ∨ k = n)%Z) (seqZ 1 m))
        ∧ Forall (λ k, (10 ≤ walk_progress k n ≤ 90)%Z) (seqZ 1 m)
        ∧ walk_progress n n = 90%Z.
Proof.
  intros percents. subst percents.
  destruct loaded as [[|e entries]|].
  - (* no entries: 5, then 100 *)
    split; [|split; [|by intros ? [= <-] ?]]; simpl; repeat constructor; lia.
  - set (n := Z.of_nat (length (e :: entries))).
    assert (Hn : (0 < n)%Z) by (subst n; simpl; lia).
    destruct (walk_entries_progress n (e :: entries) walk_start Hn)
      as (m & Hm & Hall & Hlog).
    rewrite processZipFile_log. fold n. rewrite Hlog.
    change ((w_progress walk_start).*1 ++ ?l) with (5%Z :: 10%Z :: l).
    change (w_processedCount walk_start + 1)%Z with 1%Z.
    assert (Hm' : (0 ≤ Z.of_nat m ≤ n)%Z) by (subst n; lia).
    destruct (loop_percents n (Z.of_nat m) Hn Hm') as [Hsorted Hrange].
    split; [|split].
    + apply StronglySorted_Sorted. repeat constructor; [done|..].
      * eapply Forall_impl; [exact Hrange|]. simpl. lia.
      * lia.
      * eapply Forall_impl; [exact Hrange|]. simpl. lia.
    + repeat constructor; [lia..|].
      eapply Forall_impl; [exact Hrange|]. simpl. lia.
    + intros ? [= <-] _. fold n. exists (Z.of_nat m).
      split; [done|]. split; [|split; [done|split]].
      * intros Hout. subst n. f_equal.
        rewrite processZipFile_nonempty in Hout.
        destruct (walk_entries _ _ _ _) as [w|w]; [by eapply Hall|done].
      * apply Forall_seqZ. intros k Hk. apply walk_progress_range; lia.
      * by apply walk_progress_last.
  - (* the archive cannot be read: 5 *)
    split; [|split; [|by intros ? [=]]]; simpl; repeat constructor; lia.
Qed.

(** What a run returns: the files of the entries, their sizes added up. *)
Lemma processZipFile_returns fileEntries realm r :
  (processZipFile toLowerCase (Some fileEntries) realm).2 = Returns r →
  files r = omap (packed_entry toLowerCase) fileEntries
  ∧ totalSize (stats r) = utf8_total (files r)
  ∧ tokenEstimate (stats r) = token_estimate (totalSize (stats r))
  ∧ fileCount (stats r) = Z.of_nat (length (files r)).
Proof.
  destruct fileEntries as [|e entries]; intros Hr.
  - injection Hr as <-. simpl. by vm_compute.
  - rewrite processZipFile_nonempty in Hr.
    destruct (walk_entries _ _ _ _) as [w|w] eqn:Hwalk; [|done].
    destruct (generateTreeString _ _) as [[t ?]| |]; [|done..].
    injection Hr as <-. simpl.
    apply walk_entries_files in Hwalk as (Hf & _ & Hs).
    simpl in Hf, Hs. rewrite Hf, Hs. split; [done|]. split; [lia|done].
Qed.


(** C6: when the archive has no entries the run reports 5 and then 100
    percent, and returns, as a result and not as an error, no files, the
    tree [(Empty Archive)] and statistics that are all zero. *)
Theorem processZipFile_empty (fileEntries : list ZipObject) (realm : node) :
  Z.of_nat (length fileEntries) = 0%Z →
  processZipFile toLowerCase (Some fileEntries) realm
  = ([(5%Z, js "Чтение ZIP архива..."); (100%Z, js "Архив пустой")],
     Returns {| files := []; tree := js "(Empty Archive)";
                stats := {| fileCount := 0; totalSize := 0;
                            tokenEstimate := 0 |} |}).
Proof.
  intros Hlen. destruct fileEntries as [|e entries]; [|simpl in Hlen; lia].
  reflexivity.
Qed.

(** The extension of every file returned is computed from its whole path. *)
Lemma processZipFile_extension loaded realm r f :
  (processZipFile toLowerCase loaded realm).2 = Returns r →
  f ∈ files r → extension f = extension_of (path f).
Proof.
  intros Hr Hf. destruct loaded as [entries|]; [|done].
  apply processZipFile_returns in Hr as (Hfiles & _).
  rewrite Hfiles in Hf.
  apply list_elem_of_omap in Hf as (e & _ & He).
  unfold packed_entry in He.
  destruct (dir e); [done|]. destruct (shouldIgnore (name e)); [done|].
  destruct (isTextFile toLowerCase (name e)); [|done].
  destruct (async_string e); simplify_eq/=; done.
Qed.

(** On ASCII names the lower case is the ASCII one. *)
Hypothesis toLowerCase_ascii :
  ∀ s, Forall (λ c, c < 0x80) s → toLowerCase s = ascii_toLowerCase s.

Lemma isTextFile_ascii f :
  Forall (λ c, c < 0x80) f →
  isTextFile toLowerCase f = isTextFile ascii_toLowerCase f.
Proof.
  intros Hf. unfold isTextFile.
  destruct (last (split slash f)) as [b|] eqn:Hlast; [|done]. simpl.
  rewrite toLowerCase_ascii; [done|].
  apply (split_Forall _ slash) in Hf. rewrite Forall_forall in Hf.
  apply Hf. by apply last_Some_elem_of.
Qed.

Lemma walk_entries_ascii n entries : ∀ w,
  Forall (λ e, Forall (λ c, c < 0x80) (name e)) entries →
  walk_entries toLowerCase n entries w
  = walk_entries ascii_toLowerCase n entries w.
Proof.
  induction entries as [|e entries IH]; intros w Hall; [done|].
  inversion Hall as [|? ? He Hrest]; subst. simpl.
  assert (Hstep : walk_entry toLowerCase n w e
                  = walk_entry ascii_toLowerCase n w e).
  { unfold walk_entry. by rewrite isTextFile_ascii. }
  rewrite Hstep. destruct (walk_entry ascii_toLowerCase n w e); [|done].
  by apply IH.
Qed.

Lemma processZipFile_ascii entries realm :
  Forall (λ e, Forall (λ c, c < 0x80) (name e)) entries →
  processZipFile toLowerCase (Some entries) realm
  = processZipFile ascii_toLowerCase (Some entries) realm.
Proof.
  intros Hall. unfold processZipFile. by rewrite walk_entries_ascii.
Qed.

(** The order of the entries shows in the tree of an archive that has a
    directory called [__proto__]: the files returned are the same two, the
    tree is empty in one order and shows [src/y.ts] in the other. *)
Lemma processZipFile_tree_order :
  ∃ r1 r2,
    (processZipFile toLowerCase (Some proto_archive) fresh_realm).2
      = Returns r1
    ∧ (processZipFile toLowerCase (Some (reverse proto_archive))
         fresh_realm).2 = Returns r2
    ∧ path <$> files r1 = [js "__proto__/src/x.ts"; js "src/y.ts"]
    ∧ path <$> files r2 = [js "src/y.ts"; js "__proto__/src/x.ts"]
    ∧ tree r1 = js ""
    ∧ tree r2 = js "└── src/" ++ [newline] ++ js "    └── y.ts".
Proof.
  assert (Hnames : Forall (λ e, Forall (λ c, c < 0x80) (name e)) proto_archive)
    by by_evaluation.
  assert (Hrev : Forall (λ e, Forall (λ c, c < 0x80) (name e))
                        (reverse proto_archive)) by by_evaluation.
  rewrite (processZipFile_ascii _ _ Hnames), (processZipFile_ascii _ _ Hrev).
  do 2 eexists.
  split; [vm_compute; reflexivity|]. split; [vm_compute; reflexivity|].
  by vm_compute.
Qed.

(** C2 fails on the code: [filename.split('.').pop()] is the whole path
    when the path has no full stop, so [Makefile], a text file by its
    name, gets the extension [Makefile] and not the empty string. *)
Theorem processZipFile_extension_without_dot :
  (processZipFile toLowerCase (Some makefile_archive) fresh_realm).2
  = Returns
      {| files := [{| path := js "Makefile"; content := js "all:";
                      extension := js "Makefile" |}];
         tree := js "└── Makefile";
         stats := {| fileCount := 1; totalSize := 4; tokenEstimate := 1 |} |}.
Proof.
  rewrite processZipFile_ascii; [by vm_compute|].
  by_evaluation.
Qed.

End WalkerProperties.


(** ** Instances at concrete inputs *)


Lemma processZipFile_extension_without_dot_witness :
  (processZipFile ascii_toLowerCase (Some makefile_archive) fresh_realm).2
  = Returns
      {| files := [{| path := js "Makefile"; content := js "all:";
                      extension := js "Makefile" |}];
         tree := js "└── Makefile";
         stats := {| fileCount := 1; totalSize := 4; tokenEstimate := 1 |} |}.
Proof.
  apply (processZipFile_extension_without_dot ascii_toLowerCase).
  intros s _. reflexivity.
Defined.

Lemma classifiers_no_segments_witness :
  shouldIgnore (js "//") = false ∧ isTextFile ascii_toLowerCase (js "//") = false.
Proof.
  apply (classifiers_no_segments ascii_toLowerCase).
  - intros s _. reflexivity.
  - by repeat constructor.
Defined.

Lemma isTextFile_extensionless_witness :
  isTextFile ascii_toLowerCase (js "src/README") = false.
Proof.
  apply (isTextFile_extensionless ascii_toLowerCase ascii_toLowerCase_dot
           (js "src/README") (js "README")).
  - reflexivity.
  - by_evaluation.
  - by_evaluation.
Defined.

Lemma shouldIgnore_extends_Rev1_witness :
  shouldIgnore (js "src/node_modules/x.js") = true.
Proof.
  apply (shouldIgnore_extends_Rev1 (js "src/node_modules/x.js")).
  vm_compute. reflexivity.
Defined.

Lemma processZipFile_empty_witness :
  processZipFile ascii_toLowerCase (Some []) fresh_realm
  = ([(5%Z, js "Чтение ZIP архива..."); (100%Z, js "Архив пустой")],
     Returns {| files := []; tree := js "(Empty Archive)";
                stats := {| fileCount := 0; totalSize := 0;
                            tokenEstimate := 0 |} |}).
Proof.
  apply (processZipFile_empty ascii_toLowerCase [] fresh_realm).
  reflexivity.
Defined.

(** * Further properties *)

(** ** Splitting and joining *)

Lemma join_cons sep part rest :
  rest ≠ [] → join sep (part :: rest) = part ++ sep :: join sep rest.
Proof. by destruct rest. Qed.

(** Joining the segments of a string gives the string back. *)
Lemma join_split sep s : join sep (split sep s) = s.
Proof.
  induction s as [|c s IH]; [done|]. simpl.
  pose proof (split_nonempty sep s) as Hne.
  destruct (N.eqb_spec c sep) as [->|Hc].
  - by rewrite join_cons, IH.
  - destruct (split sep s) as [|seg segs]; [done|].
    destruct segs as [|seg' segs]; simpl in *; by rewrite <- IH.
Qed.

(** Splitting a joined list gives the list back, when no part has the
    separator in it and there is a part at all. *)
Lemma split_join sep parts :
  parts ≠ [] → Forall (λ part, sep ∉ part) parts →
  split sep (join sep parts) = parts.
Proof.
  induction parts as [|part rest IH]; [done|]. intros _ Hall.
  inversion Hall as [|? ? Hpart Hrest]; subst.
  destruct rest as [|part' rest]; [by apply split_no_sep|].
  rewrite join_cons, split_app_sep, split_no_sep by done.
  by rewrite IH.
Qed.

(** X1: [split] and [join] are inverse to each other: joining the
    segments of any string gives the string back, and splitting a joined,
    non-empty list of separator-free parts gives the list back. *)
Theorem split_join_round_trip (sep : N) :
  (∀ s, join sep (split sep s) = s)
  ∧ (∀ parts, parts ≠ [] → Forall (λ part, sep ∉ part) parts →
              split sep (join sep parts) = parts)
  ∧ (∀ s, Forall (λ part, sep ∉ part) (split sep s)).
Proof.
  split; [apply join_split|]. split; [apply split_join|].
  intros s. induction s as [|c s IH]; simpl.
  - repeat constructor. apply not_elem_of_nil.
  - destruct (N.eqb_spec c sep) as [->|Hc].
    + constructor; [apply not_elem_of_nil|done].
    + pose proof (split_nonempty sep s).
      destruct (split sep s) as [|seg segs]; [done|].
      inversion IH; subst. constructor; [|done].
      rewrite not_elem_of_cons. split; [congruence|done].
Qed.

(** ** The classifier of text files, continued *)

Lemma KNOWN_FILES_no_dot known : known ∈ KNOWN_FILES → dot ∉ known.
Proof.
  assert (Hall : Forall (λ known, dot ∉ known) KNOWN_FILES) by by_evaluation.
  rewrite Forall_forall in Hall. apply Hall.
Qed.

(** Case analysis on the comparisons of a goal. *)
Ltac leb_cases :=
  repeat lazymatch goal with
         | |- context [?a <=? ?b] => destruct (N.leb_spec a b); cbn [andb]
         end.

Lemma ascii_lower_unit_slash c : ascii_lower_unit c = slash ↔ c = slash.
Proof. unfold ascii_lower_unit, slash. leb_cases; lia. Qed.

Lemma ascii_lower_unit_idem c :
  ascii_lower_unit (ascii_lower_unit c) = ascii_lower_unit c.
Proof.
  unfold ascii_lower_unit at 2 3.
  destruct (N.leb_spec 0x41 c), (N.leb_spec c 0x5A); cbn [andb];
    unfold ascii_lower_unit; leb_cases; lia.
Qed.

(** Lowering the ASCII letters of a path lowers them in each segment. *)
Lemma split_ascii_toLowerCase s :
  split slash (ascii_toLowerCase s) = ascii_toLowerCase <$> split slash s.
Proof.
  induction s as [|c s IH]; [done|]. simpl. rewrite IH.
  destruct (N.eqb_spec c slash) as [->|Hc]; [done|].
  destruct (N.eqb_spec (ascii_lower_unit c) slash) as [Heq|_].
  { apply (proj1 (ascii_lower_unit_slash c)) in Heq. destruct (Hc Heq). }
  by destruct (split slash s).
Qed.

Section ClassifierExtras.

Variable toLowerCase : jsstring → jsstring.

(** X2: when the lower-cased last segment of a path has a full stop, the
    path is a text file exactly when what follows the last full stop is
    one of the text extensions; in particular a name that ends in a full
    stop is none. *)
Theorem isTextFile_dotted (f b before ext : jsstring) :
  last (split slash f) = Some b →
  toLowerCase b = before ++ dot :: ext → dot ∉ ext →
  isTextFile toLowerCase f = bool_decide (ext ∈ TEXT_EXTENSIONS)
  ∧ (ext = [] → isTextFile toLowerCase f = false).
Proof.
  intros Hlast Hlow Hext.
  assert (Hmain : isTextFile toLowerCase f = bool_decide (ext ∈ TEXT_EXTENSIONS)).
  { unfold isTextFile. rewrite Hlast. simpl. rewrite Hlow.
    destruct (before ++ dot :: ext) as [|c lower] eqn:Hshape.
    { by destruct before. }
    rewrite <- Hshape. rewrite bool_decide_eq_false_2.
    2:{ intros Hknown. apply KNOWN_FILES_no_dot in Hknown. apply Hknown.
        rewrite elem_of_app, elem_of_cons. auto. }
    rewrite split_app_sep, (split_no_sep dot ext) by done.
    pose proof (split_nonempty dot before).
    rewrite last_snoc, length_app. simpl.
    destruct (split dot before) as [|seg segs]; [done|]. simpl.
    replace (length segs + 1 =? 0)%nat with false
      by (symmetry; apply Nat.eqb_neq; lia).
    destruct ext; [by vm_compute|done]. }
  split; [done|]. intros ->. rewrite Hmain. by vm_compute.
Qed.

(** X3: only the last segment of a path counts: the directories in front
    of it, whatever their names, change nothing. *)
Theorem isTextFile_basename (q f : jsstring) :
  isTextFile toLowerCase (q ++ slash :: f) = isTextFile toLowerCase f.
Proof. unfold isTextFile. by rewrite last_split_app_sep. Qed.

Hypothesis toLowerCase_ascii :
  ∀ s, Forall (λ c, c < 0x80) s → toLowerCase s = ascii_toLowerCase s.

(** X4: two paths of ASCII code units that differ only in the case of
    their letters are classified alike. *)
Theorem isTextFile_case_insensitive (f g : jsstring) :
  Forall (λ c, c < 0x80) f → Forall (λ c, c < 0x80) g →
  ascii_toLowerCase f = ascii_toLowerCase g →
  isTextFile toLowerCase f = isTextFile toLowerCase g.
Proof.
  assert (Hlow : ∀ h, Forall (λ c, c < 0x80) h →
            isTextFile toLowerCase h
            = isTextFile ascii_toLowerCase (ascii_toLowerCase h)).
  { intros h Hh. rewrite (isTextFile_ascii toLowerCase toLowerCase_ascii h Hh).
    unfold isTextFile. rewrite split_ascii_toLowerCase, fmap_last.
    destruct (last (split slash h)) as [b|]; [|done]. simpl.
    replace (ascii_toLowerCase (ascii_toLowerCase b)) with (ascii_toLowerCase b);
      [done|].
    unfold ascii_toLowerCase. rewrite <- list_fmap_compose.
    apply list_fmap_ext. intros ? c _. simpl.
    by rewrite ascii_lower_unit_idem. }
  intros Hf Hg Heq. by rewrite (Hlow f Hf), (Hlow g Hg), Heq.
Qed.

End ClassifierExtras.

Lemma isTextFile_dotted_witness :
  isTextFile ascii_toLowerCase (js "src/.ENV")
    = bool_decide (js "env" ∈ TEXT_EXTENSIONS)
  ∧ (js "env" = [] → isTextFile ascii_toLowerCase (js "src/.ENV") = false).
Proof.
  apply (isTextFile_dotted ascii_toLowerCase (js "src/.ENV") (js ".ENV")
           [] (js "env")).
  - reflexivity.
  - reflexivity.
  - by_evaluation.
Defined.

Lemma isTextFile_case_insensitive_witness :
  isTextFile ascii_toLowerCase (js "Src/Main.TS")
  = isTextFile ascii_toLowerCase (js "src/main.ts").
Proof.
  apply (isTextFile_case_insensitive ascii_toLowerCase).
  - intros s _. reflexivity.
  - by_evaluation.
  - by_evaluation.
  - reflexivity.
Defined.

(** ** Fences, continued *)

Lemma scan_backticks_app_other run a c b :
  c ≠ backtick →
  scan_backticks run (a ++ c :: b)
  = scan_backticks run a ++ scan_backticks [] b.
Proof.
  intros Hc. revert run. induction a as [|x a IH]; intros run; simpl.
  - by destruct (N.eqb_spec c backtick).
  - destruct (x =? backtick); [apply IH|]. by rewrite IH, app_assoc.
Qed.

Lemma scan_backticks_replicate n s : ∀ run,
  scan_backticks run (replicate n backtick ++ s)
  = scan_backticks (run ++ replicate n backtick) s.
Proof.
  induction n as [|n IH]; intros run; simpl.
  - by rewrite app_nil_r.
  - rewrite IH. by rewrite <- app_assoc.
Qed.

Lemma scan_backticks_none s : ∀ run,
  backtick ∉ s → scan_backticks run s = emit_run run.
Proof.
  induction s as [|c s IH]; intros run Hs; simpl; [done|].
  apply not_elem_of_cons in Hs as [Hc Hs].
  destruct (N.eqb_spec c backtick) as [Heq|_]; [done|].
  rewrite (IH [] Hs). simpl. by rewrite app_nil_r.
Qed.

(** The runs of a text in lines are those of its lines. *)
Lemma backtick_runs_line a rest :
  backtick_runs (a ++ newline :: rest) = backtick_runs a ++ backtick_runs rest.
Proof. by apply scan_backticks_app_other. Qed.

Lemma backtick_runs_newline rest :
  backtick_runs (newline :: rest) = backtick_runs rest.
Proof. exact (backtick_runs_line [] rest). Qed.

Lemma backtick_runs_none s : backtick ∉ s → backtick_runs s = [].
Proof. intros Hs. unfold backtick_runs. by rewrite scan_backticks_none. Qed.

Lemma backtick_runs_fence n s :
  (0 < n)%nat → backtick ∉ s →
  backtick_runs (replicate n backtick ++ s) = [replicate n backtick].
Proof.
  intros Hn Hs. unfold backtick_runs.
  rewrite scan_backticks_replicate, scan_backticks_none by done.
  destruct n; [lia|done].
Qed.

Lemma fenceLength_ge s : (3 ≤ fenceLength s)%nat.
Proof. rewrite fenceLength_max. lia. Qed.

(** A section as lines. *)
Lemma file_section_lines f :
  file_section f
  = (js "### " ++ path f)
      ++ newline
      :: (replicate (fenceLength (content f)) backtick ++ extension f)
      ++ newline
      :: content f
      ++ newline
      :: (replicate (fenceLength (content f)) backtick ++ [])
      ++ newline :: [newline].
Proof.
  unfold file_section, pack_file. cbv zeta.
  rewrite app_nil_l, app_nil_r. by rewrite <- !app_assoc.
Qed.

Lemma backtick_runs_lines a b c d rest :
  backtick_runs
    ((a ++ newline :: b ++ newline :: c ++ newline :: d
        ++ newline :: [newline]) ++ rest)
  = backtick_runs a ++ backtick_runs b ++ backtick_runs c
      ++ backtick_runs d ++ backtick_runs rest.
Proof.
  rewrite <- !app_assoc. cbn [app]. rewrite <- !app_assoc. cbn [app].
  rewrite <- !app_assoc. cbn [app]. rewrite <- !app_assoc. cbn [app].
  rewrite !backtick_runs_line. by rewrite ?backtick_runs_newline.
Qed.

(** The runs of backticks of a section whose path and extension have
    none: the two fences, and between them the runs of the content. *)
Lemma file_section_runs f rest :
  backtick ∉ path f → backtick ∉ extension f →
  backtick_runs (file_section f ++ rest)
  = [replicate (fenceLength (content f)) backtick]
      ++ backtick_runs (content f)
      ++ [replicate (fenceLength (content f)) backtick]
      ++ backtick_runs rest.
Proof.
  intros Hpath Hext. pose proof (fenceLength_ge (content f)) as Hge.
  rewrite file_section_lines, backtick_runs_lines.
  rewrite (backtick_runs_none (js "### " ++ path f)).
  2:{ rewrite not_elem_of_app. split; [by_evaluation|done]. }
  rewrite !backtick_runs_fence by (done || lia || apply not_elem_of_nil).
  done.
Qed.

Lemma longest_run_content_lt s : (longest_run s < fenceLength s)%nat.
Proof. rewrite fenceLength_max. lia. Qed.

Lemma foldr_max_app (l1 l2 : list jsstring) :
  foldr (λ m acc, Nat.max (length m) acc) 0%nat (l1 ++ l2)
  = Nat.max (foldr (λ m acc, Nat.max (length m) acc) 0%nat l1)
            (foldr (λ m acc, Nat.max (length m) acc) 0%nat l2).
Proof. induction l1 as [|m l1 IH]; simpl; [done|]. rewrite IH. lia. Qed.

(** The longest run of the sections of some files, followed by a rest. *)
Lemma sections_longest_run files rest :
  Forall (λ f, (backtick ∉ path f) ∧ (backtick ∉ extension f)) files →
  Nat.max 3 (longest_run (concat (file_section <$> files) ++ rest))
  = Nat.max (longest_fence files) (longest_run rest).
Proof.
  induction 1 as [|f files [Hpath Hext] _ IH]; [done|].
  rewrite fmap_cons, concat_cons, <- app_assoc.
  unfold longest_run at 1. rewrite file_section_runs by done.
  rewrite !foldr_max_app. cbn [foldr]. rewrite length_replicate.
  fold (longest_run (content f)).
  fold (longest_run (concat (file_section <$> files) ++ rest)).
  unfold longest_fence. cbn [foldr]. fold (longest_fence files).
  pose proof (longest_run_content_lt (content f)). lia.
Qed.

(** The runs of backticks of a document, by its lines. *)
Lemma document_runs title name s1 fence tree s2 rest :
  backtick_runs
    ((((title ++ name ++ [newline; newline])
         ++ s1 ++ [newline; newline] ++ fence ++ [newline] ++ tree
         ++ [newline] ++ fence ++ [newline; newline])
        ++ s2 ++ [newline; newline]) ++ rest)
  = backtick_runs (title ++ name) ++ backtick_runs s1 ++ backtick_runs fence
      ++ backtick_runs tree ++ backtick_runs fence ++ backtick_runs s2
      ++ backtick_runs rest.
Proof.
  rewrite <- !app_assoc. cbn [app]. rewrite (app_assoc title name).
  repeat (rewrite backtick_runs_line || rewrite backtick_runs_newline).
  done.
Qed.

(** X5: a packed document, taken as the content of a file, is fenced one
    backtick longer than the longest fence it has inside, when the title,
    the tree, the paths and the extensions have no backticks; the fence of
    the tree counts for three. *)
Theorem fenceLength_packed_document
    (repoName tree : jsstring) (files : list ProcessedFile) :
  backtick ∉ repoName → backtick ∉ tree →
  Forall (λ f, (backtick ∉ path f) ∧ (backtick ∉ extension f)) files →
  fenceLength (createMarkdownContent repoName tree files)
  = S (longest_fence files)
  ∧ (3 ≤ longest_fence files)%nat
  ∧ Forall (λ f, (fenceLength (content f) ≤ longest_fence files)%nat) files.
Proof.
  intros Hname Htree Hfiles.
  assert (Hbound : (3 ≤ longest_fence files)%nat
            ∧ Forall (λ f, (fenceLength (content f) ≤ longest_fence files)%nat)
                     files).
  { clear. induction files as [|f files [IH1 IH2]].
    - split; [done|constructor].
    - unfold longest_fence. cbn [foldr]. fold (longest_fence files).
      split; [lia|]. constructor; [cbv beta; lia|].
      eapply Forall_impl; [exact IH2|]. intros x Hx. cbv beta in *. lia. }
  split; [|done]. destruct Hbound as [Hge _].
  rewrite fenceLength_max.
  enough (longest_run (createMarkdownContent repoName tree files)
          = longest_fence files) by lia.
  unfold createMarkdownContent. rewrite foldl_pack_file.
  unfold longest_run at 1. rewrite document_runs.
  rewrite (backtick_runs_none (js "# Project: " ++ repoName)).
  2:{ rewrite not_elem_of_app. split; [by_evaluation|done]. }
  rewrite (backtick_runs_none tree) by done.
  change (backtick_runs (js "## 📂 Project Structure")) with (@nil jsstring).
  change (backtick_runs (js "## 💻 File Contents")) with (@nil jsstring).
  change (backtick_runs (js "```")) with [js "```"].
  rewrite !foldr_max_app. cbn [foldr app].
  fold (longest_run (concat (file_section <$> files))).
  change (length (js "```")) with 3%nat.
  pose proof (sections_longest_run files [] Hfiles) as Hsec.
  rewrite app_nil_r in Hsec. change (longest_run []) with 0%nat in Hsec. lia.
Qed.

Lemma fenceLength_packed_document_witness :
  fenceLength
    (createMarkdownContent (js "inner") (js "└── a.md")
       [{| path := js "a.md"; content := js "````"; extension := js "md" |}])
  = 6%nat.
Proof.
  apply (fenceLength_packed_document (js "inner") (js "└── a.md")
           [{| path := js "a.md"; content := js "````";
               extension := js "md" |}]).
  - by_evaluation.
  - by_evaluation.
  - by_evaluation.
Defined.

(** ** The earlier revision of the packer and the renderer *)

Lemma Rev1_pack_file_section md f :
  Rev1Packer.pack_file md f = md ++ Rev1Packer.pack_file [] f.
Proof.
  unfold Rev1Packer.pack_file. cbv zeta.
  rewrite app_nil_l. by rewrite <- !app_assoc.
Qed.

Lemma Rev1_foldl_pack_file files : ∀ md,
  foldl Rev1Packer.pack_file md files
  = md ++ concat ((Rev1Packer.pack_file []) <$> files).
Proof.
  induction files as [|f files IH]; intros md; simpl.
  - by rewrite app_nil_r.
  - by rewrite IH, Rev1_pack_file_section, <- app_assoc.
Qed.

(** A section is as much longer than that of the earlier revision as its
    two fences are longer than three. *)
Lemma file_section_length f :
  length (file_section f)
  = (length (Rev1Packer.pack_file [] f)
     + 2 * (fenceLength (content f) - 3))%nat.
Proof.
  pose proof (fenceLength_ge (content f)).
  unfold file_section, pack_file, Rev1Packer.pack_file. cbv zeta.
  rewrite !length_app, !length_replicate.
  change (length (js "```")) with 3%nat. simpl. lia.
Qed.

Lemma file_section_Rev1 f :
  fenceLength (content f) = 3%nat →
  file_section f = Rev1Packer.pack_file [] f.
Proof.
  intros Hf. unfold file_section, pack_file, Rev1Packer.pack_file.
  cbv zeta. by rewrite Hf.
Qed.

(** X6: the two revisions of [createMarkdownContent] produce the same
    document exactly when no content has a run of three backticks or
    more; otherwise the later document is longer by twice what the fences
    exceed three. *)
Theorem createMarkdownContent_Rev1
    (repoName tree : jsstring) (files : list ProcessedFile) :
  (createMarkdownContent repoName tree files
   = Rev1Packer.createMarkdownContent repoName tree files
   ↔ Forall (λ f, (longest_run (content f) < 3)%nat) files)
  ∧ length (createMarkdownContent repoName tree files)
    = (length (Rev1Packer.createMarkdownContent repoName tree files)
       + foldr (λ f acc, 2 * (fenceLength (content f) - 3) + acc) 0 files)%nat.
Proof.
  unfold createMarkdownContent, Rev1Packer.createMarkdownContent.
  rewrite foldl_pack_file, Rev1_foldl_pack_file.
  set (header := _ ++ js "## 💻 File Contents" ++ [newline; newline]).
  assert (Hlen : length (concat (file_section <$> files))
    = (length (concat ((Rev1Packer.pack_file []) <$> files))
       + foldr (λ f acc, 2 * (fenceLength (content f) - 3) + acc) 0 files)%nat).
  { induction files as [|f files IH]; [done|].
    rewrite !fmap_cons, !concat_cons, !length_app, IH, file_section_length.
    cbn [foldr]. lia. }
  split; [|rewrite !length_app; lia].
  split.
  - intros Heq. apply app_inv_head in Heq.
    apply (f_equal length) in Heq. rewrite Hlen in Heq.
    assert (Hzero : (foldr (λ f acc, 2 * (fenceLength (content f) - 3) + acc)
                       0 files = 0)%nat) by lia.
    clear -Hzero. induction files as [|f files IH]; [constructor|].
    cbn [foldr] in Hzero. constructor; [|apply IH; lia].
    pose proof (fenceLength_max (content f)). cbv beta. lia.
  - intros Hall. f_equal. f_equal.
    apply Forall_fmap_ext_1. eapply Forall_impl; [exact Hall|].
    intros f Hf. apply file_section_Rev1.
    rewrite fenceLength_max. cbv beta in Hf. lia.
Qed.

(** X7: the flat tree of the earlier revision does not depend on the order
    of the paths, whatever they are: it sorts the paths themselves. *)
Theorem Rev1_generateTreeString_perm (paths1 paths2 : list jsstring) :
  paths1 ≡ₚ paths2 →
  Rev1Packer.generateTreeString paths1 = Rev1Packer.generateTreeString paths2.
Proof.
  intros Hperm. unfold Rev1Packer.generateTreeString.
  replace (sort paths2) with (sort paths1); [done|].
  destruct (sort_sorted paths2) as (_ & _ & Hunique).
  apply Hunique; [apply sort_sorted|].
  destruct (sort_sorted paths1) as (_ & Hp & _). by rewrite Hp.
Qed.

Lemma Rev1_generateTreeString_perm_witness :
  Rev1Packer.generateTreeString [js "__proto__/src/x.ts"; js "src/y.ts"]
  = Rev1Packer.generateTreeString [js "src/y.ts"; js "__proto__/src/x.ts"].
Proof.
  apply (Rev1_generateTreeString_perm
           [js "__proto__/src/x.ts"; js "src/y.ts"]
           [js "src/y.ts"; js "__proto__/src/x.ts"]).
  apply perm_swap.
Defined.

(** ** The tree renderer, continued *)

(** Inserting a path whose segments begin a path already there changes
    nothing. *)
Lemma trie_insert_prefix p : ∀ q t,
  trie_insert p (trie_insert (p ++ q) t) = trie_insert (p ++ q) t.
Proof.
  induction p as [|a p IH]; intros q t; [done|]. simpl.
  rewrite lookup_insert_eq, insert_insert_eq. simpl. by rewrite IH.
Qed.

Lemma trie_of_snoc paths path :
  trie_of (paths ++ [path]) = trie_insert (split slash path) (trie_of paths).
Proof. unfold trie_of. by rewrite foldl_snoc. Qed.

Lemma trie_of_cons path paths :
  trie_of (path :: paths) = trie_insert (split slash path) (trie_of paths).
Proof.
  rewrite <- trie_of_snoc. apply trie_of_perm.
  by rewrite Permutation_app_comm.
Qed.

Lemma trie_of_absorbs path paths :
  (∃ longer, longer ∈ paths
             ∧ split slash path `prefix_of` split slash longer) →
  trie_insert (split slash path) (trie_of paths) = trie_of paths.
Proof.
  intros (longer & Hin & q & Hq).
  induction paths as [|other paths IH]; [by apply elem_of_nil in Hin|].
  rewrite trie_of_cons. apply elem_of_cons in Hin as [<-|Hin].
  - rewrite Hq. apply trie_insert_prefix.
  - by rewrite trie_insert_comm, IH.
Qed.

(** X8: a path whose segments are the first segments of another path of
    the list adds nothing to the tree: a name that is a file in one path
    and a directory in another is rendered as a directory, in whichever
    order the two come, and a path given twice counts once. *)
Theorem generateTreeString_prefix (path : jsstring) (paths : list jsstring) :
  Forall plain_path (path :: paths) →
  (∃ longer, longer ∈ paths
             ∧ split slash path `prefix_of` split slash longer) →
  generateTreeString (path :: paths) fresh_realm
  = generateTreeString paths fresh_realm
  ∧ ∀ before after, paths = before ++ after →
      generateTreeString (before ++ path :: after) fresh_realm
      = generateTreeString paths fresh_realm.
Proof.
  intros Hplain Hlonger.
  assert (Hrest : Forall plain_path paths) by by inversion Hplain.
  assert (Hhead : generateTreeString (path :: paths) fresh_realm
                  = generateTreeString paths fresh_realm).
  { rewrite !generateTreeString_plain by done.
    by rewrite trie_of_cons, trie_of_absorbs. }
  split; [done|]. intros before after ->.
  rewrite <- Hhead. rewrite !generateTreeString_plain; [| done |].
  - rewrite (trie_of_perm (before ++ path :: after) (path :: before ++ after));
      [done|by rewrite Permutation_middle].
  - apply Forall_app in Hrest as [Hbefore Hafter].
    apply Forall_app. split; [done|]. constructor; [|done].
    by inversion Hplain.
Qed.

Lemma trie_of_remove_dups paths :
  trie_of (remove_dups paths) = trie_of paths.
Proof.
  induction paths as [|path paths IH]; [done|]. simpl.
  rewrite trie_of_cons. destruct (decide_rel _ _ _) as [Hin|Hnotin].
  - rewrite IH. symmetry. apply trie_of_absorbs. by exists path.
  - by rewrite trie_of_cons, IH.
Qed.

(** X9: on paths free of the names of [Object.prototype], in a realm that
    has added nothing to it, the tree depends only on the set of the
    paths: two lists with the same members render alike. *)
Theorem generateTreeString_set (paths1 paths2 : list jsstring) :
  Forall plain_path paths1 → Forall plain_path paths2 →
  (∀ path, path ∈ paths1 ↔ path ∈ paths2) →
  generateTreeString paths1 fresh_realm = generateTreeString paths2 fresh_realm.
Proof.
  intros Hplain1 Hplain2 Hsame.
  rewrite !generateTreeString_plain by done.
  rewrite <- (trie_of_remove_dups paths1), <- (trie_of_remove_dups paths2).
  rewrite (trie_of_perm (remove_dups paths1) (remove_dups paths2)); [done|].
  apply NoDup_Permutation; [apply NoDup_remove_dups..|].
  intros path. by rewrite !elem_of_remove_dups.
Qed.

Lemma plain_path_intro path :
  Forall (λ part, part ≠ PROTO ∧ part ∉ OBJECT_PROTOTYPE_METHODS)
         (split slash path) →
  plain_path path.
Proof. intros Hall part Hin. rewrite Forall_forall in Hall. by apply Hall. Qed.

(** Plain paths, one by one. *)
Ltac plain_paths :=
  repeat (apply Forall_cons_2; [apply plain_path_intro; by_evaluation|]);
  apply Forall_nil_2.

Lemma generateTreeString_prefix_witness :
  generateTreeString [js "src"; js "src/a.ts"] fresh_realm
  = generateTreeString [js "src/a.ts"] fresh_realm.
Proof.
  apply (generateTreeString_prefix (js "src") [js "src/a.ts"]).
  - plain_paths.
  - exists (js "src/a.ts"). split; [by_evaluation|]. by exists [js "a.ts"].
Defined.

Lemma generateTreeString_set_witness :
  generateTreeString [js "a/x.ts"; js "b.md"; js "a/x.ts"] fresh_realm
  = generateTreeString [js "b.md"; js "a/x.ts"] fresh_realm.
Proof.
  apply (generateTreeString_set [js "a/x.ts"; js "b.md"; js "a/x.ts"]
           [js "b.md"; js "a/x.ts"]).
  - plain_paths.
  - plain_paths.
  - intros path. rewrite !elem_of_cons, !elem_of_nil. tauto.
Defined.

(** ** The archive walker, continued *)




Lemma count_multiples (d : Z) (m : nat) :
  (0 < d)%Z →
  Z.of_nat (length (filter (λ k, (k `mod` d = 0)%Z) (seqZ 1 (Z.of_nat m))))
  = (Z.of_nat m `div` d)%Z.
Proof.
  intros Hd. induction m as [|m IH].
  - by rewrite Z.div_0_l by lia.
  - rewrite seqZ_S, filter_app, length_app, Nat2Z.inj_add, IH.
    rewrite filter_cons, filter_nil.
    clear IH. rewrite Nat2Z.inj_succ.
    replace (Z.succ (Z.of_nat m)) with (1 + Z.of_nat m)%Z by lia.
    pose proof (Nat2Z.is_nonneg m) as Hm. revert Hm.
    generalize (Z.of_nat m). intros x Hx.
    destruct (decide _) as [Hmod|Hmod]; simpl length.
    + pose proof (Z.div_mod (1 + x) d ltac:(lia)) as H1.
      pose proof (Z.div_mod x d ltac:(lia)) as H2.
      pose proof (Z.mod_pos_bound x d Hd) as H3.
      rewrite Hmod in H1.
      assert ((1 + x) `div` d = x `div` d + 1)%Z by nia.
      change (Z.of_nat 1) with 1%Z. lia.
    + pose proof (Z.div_mod (1 + x) d ltac:(lia)) as H1.
      pose proof (Z.div_mod x d ltac:(lia)) as H2.
      pose proof (Z.mod_pos_bound x d Hd) as H3.
      pose proof (Z.mod_pos_bound (1 + x) d Hd) as H4.
      assert ((1 + x) `div` d = x `div` d)%Z by nia.
      change (Z.of_nat 0) with 0%Z. lia.
Qed.

Lemma filter_ext_elem {A} (P Q : A → Prop)
    `{∀ x, Decision (P x)} `{∀ x, Decision (Q x)} (l : list A) :
  (∀ x, x ∈ l → P x ↔ Q x) → filter P l = filter Q l.
Proof.
  induction l as [|x l IH]; intros Hext; [done|].
  rewrite !filter_cons, IH by (intros y Hy; apply Hext; by right).
  pose proof (Hext x ltac:(by left)) as Hx.
  by destruct (decide (P x)), (decide (Q x)); try tauto.
Qed.

(** The reports of the loop over [n] entries: one for every fifth and one
    for the last, which may be the same. *)
Lemma count_reports (n : nat) :
  (0 < n)%nat →
  Z.of_nat (length (filter (λ k, (k `mod` 5 = 0 ∨ k = Z.of_nat n)%Z)
                      (seqZ 1 (Z.of_nat n))))
  = ((Z.of_nat n + 4) `div` 5)%Z.
Proof.
  destruct n as [|m]; [lia|]. intros _.
  rewrite seqZ_S, filter_app, length_app, Nat2Z.inj_add.
  rewrite (filter_ext_elem _ (λ k, (k `mod` 5 = 0)%Z) (seqZ 1 (Z.of_nat m))).
  2:{ intros k Hk. apply elem_of_seqZ in Hk. split; [|by left].
      intros [Hmod|Hlast]; [done|lia]. }
  rewrite count_multiples by lia.
  rewrite filter_cons, filter_nil, decide_True by (right; lia).
  change (Z.of_nat (length [(1 + Z.of_nat m)%Z])) with 1%Z.
  replace (Z.of_nat (S m) + 4)%Z with (Z.of_nat m + 1 * 5)%Z by lia.
  by rewrite Z.div_add by lia.
Qed.

Section WalkerExtras.

Variable toLowerCase : jsstring → jsstring.

(** A turn of the loop fails exactly on an entry that is kept and whose
    content cannot be read. *)
Lemma walk_entry_inr n w e :
  (∃ w', walk_entry toLowerCase n w e = inr w')
  ↔ is_kept toLowerCase e = true ∧ async_string e = None.
Proof.
  unfold walk_entry, is_kept.
  destruct (dir e), (shouldIgnore (name e)),
    (isTextFile toLowerCase (name e)), (async_string e); simpl;
    (split;
     [ intros [w' Hw']; try discriminate Hw'; by split
     | intros [Hk Hn]; try discriminate Hk; try discriminate Hn;
       by eexists ]).
Qed.

Lemma walk_entries_inr n entries : ∀ w,
  (∃ w', walk_entries toLowerCase n entries w = inr w')
  ↔ ∃ e, e ∈ entries ∧ is_kept toLowerCase e = true ∧ async_string e = None.
Proof.
  induction entries as [|e entries IH]; intros w; simpl.
  - split; [by intros [? [=]]|]. intros (e & Hin & _).
    by apply elem_of_nil in Hin.
  - destruct (walk_entry toLowerCase n w e) as [w1|w1] eqn:He.
    + rewrite IH. split.
      * intros (e' & Hin & Hkept). exists e'. split; [by right|done].
      * intros (e' & Hin & Hkept & Hnone).
        apply elem_of_cons in Hin as [->|Hin]; [|by exists e'].
        assert (Hinr : ∃ w', walk_entry toLowerCase n w e = inr w')
          by by apply walk_entry_inr.
        destruct Hinr as [w' Hw']. congruence.
    + split; [|by eauto]. intros _. exists e. split; [by left|].
      apply (walk_entry_inr n w e). by exists w1.
Qed.

Lemma packed_entry_spec e :
  packed_entry toLowerCase e
  = if is_kept toLowerCase e then
      (λ content, {| path := name e; content := content;
                     extension := extension_of (name e) |})
        <$> async_string e
    else None.
Proof.
  unfold packed_entry, is_kept.
  by destruct (dir e), (shouldIgnore (name e)),
    (isTextFile toLowerCase (name e)).
Qed.

(** The outcome of a run on an archive with entries. *)
Lemma processZipFile_outcome_rejected entries realm :
  (processZipFile toLowerCase (Some entries) realm).2 = Throws Rejected
  ↔ ∃ e, e ∈ entries ∧ is_kept toLowerCase e = true ∧ async_string e = None.
Proof.
  rewrite <- (walk_entries_inr (Z.of_nat (length entries)) entries walk_start).
  destruct entries as [|e entries].
  - split; [done|]. by intros [? [=]].
  - rewrite processZipFile_nonempty.
    destruct (walk_entries _ _ _ _) as [w|w]; simpl.
    + split; [|by intros [? [=]]].
      by destruct (generateTreeString _ _) as [[? ?]| |].
    + split; [by eauto|done].
Qed.

(** X10: how a run fails. When the archive cannot be opened, the run
    reports 5 percent and throws the error that says so. When the archive
    opens, the run throws what the read of a content throws exactly when
    some entry that is kept (no directory, not ignored, a text file) has a
    content that cannot be read. *)
Theorem processZipFile_failures (realm : node) :
  processZipFile toLowerCase None realm
  = ([(5%Z, js "Чтение ZIP архива...")],
     Throws (Error (js "Не удалось открыть ZIP файл. Возможно он поврежден.")))
  ∧ ∀ fileEntries,
      (processZipFile toLowerCase (Some fileEntries) realm).2 = Throws Rejected
      ↔ ∃ e, e ∈ fileEntries ∧ is_kept toLowerCase e = true
             ∧ async_string e = None.
Proof. split; [done|]. intros. apply processZipFile_outcome_rejected. Qed.



(** X12: an archive that has entries but none that is kept returns no
    files, an empty tree (not the tree of the empty archive) and
    statistics that are all zero. *)
Theorem processZipFile_nothing_kept
    (fileEntries : list ZipObject) (realm : node) :
  fileEntries ≠ [] →
  Forall (λ e, is_kept toLowerCase e = false) fileEntries →
  (processZipFile toLowerCase (Some fileEntries) realm).2
  = Returns {| files := []; tree := js "";
               stats := {| fileCount := 0; totalSize := 0;
                           tokenEstimate := 0 |} |}.
Proof.
  intros Hne Hnone. destruct fileEntries as [|e entries]; [done|].
  assert (Homap : omap (packed_entry toLowerCase) (e :: entries) = []).
  { clear Hne. induction Hnone as [|e' es He' _ IH]; [done|].
    cbn [omap list_omap]. by rewrite packed_entry_spec, He'. }
  rewrite processZipFile_nonempty.
  destruct (walk_entries _ _ _ _) as [w|w] eqn:Hwalk.
  - apply walk_entries_files in Hwalk as (Hf & Hp & Hs).
    rewrite Homap in Hf, Hp, Hs. simpl in Hf, Hp, Hs.
    rewrite Hp, Hf, Hs. by vm_compute.
  - assert (Hex : ∃ e', e' ∈ e :: entries ∧ is_kept toLowerCase e' = true
                        ∧ async_string e' = None).
    { apply (walk_entries_inr (Z.of_nat (length (e :: entries))) _ walk_start).
      by exists w. }
    destruct Hex as (e' & Hin & Hkept & _).
    rewrite Forall_forall in Hnone. rewrite (Hnone e' Hin) in Hkept. done.
Qed.


(** X14: a run that visits all the [n] entries of an archive calls
    [onProgress] two times before the loop and then once for every fifth
    entry and once for the last: 2 + ceil(n / 5) times. *)
Theorem processZipFile_reports
    (fileEntries : list ZipObject) (realm : node) :
  fileEntries ≠ [] →
  (processZipFile toLowerCase (Some fileEntries) realm).2 ≠ Throws Rejected →
  Z.of_nat (length (processZipFile toLowerCase (Some fileEntries) realm).1)
  = (2 + (Z.of_nat (length fileEntries) + 4) `div` 5)%Z.
Proof.
  intros Hne Hout. destruct fileEntries as [|e entries]; [done|].
  set (n := length (e :: entries)).
  assert (Hn : (0 < Z.of_nat n)%Z) by (subst n; simpl; lia).
  destruct (walk_entries_progress toLowerCase (Z.of_nat n) (e :: entries)
              walk_start Hn) as (m & _ & Hall & Hlog).
  assert (Hm : m = n).
  { rewrite processZipFile_nonempty in Hout. fold n in Hout.
    destruct (walk_entries _ _ _ _) as [w|w]; [by eapply Hall|done]. }
  subst m. rewrite processZipFile_log. fold n.
  apply (f_equal length) in Hlog.
  rewrite length_app, !length_fmap in Hlog. rewrite Hlog.
  change (w_processedCount walk_start + 1)%Z with 1%Z.
  rewrite Nat2Z.inj_add, count_reports by (subst n; simpl; lia).
  by change (Z.of_nat (length (w_progress walk_start))) with 2%Z.
Qed.

End WalkerExtras.


Lemma processZipFile_nothing_kept_witness :
  (processZipFile ascii_toLowerCase
     (Some [{| name := js "node_modules/x.js"; dir := false;
               async_string := Some (js "x") |}]) fresh_realm).2
  = Returns {| files := []; tree := js "";
               stats := {| fileCount := 0; totalSize := 0;
                           tokenEstimate := 0 |} |}.
Proof.
  apply (processZipFile_nothing_kept ascii_toLowerCase).
  - done.
  - by_evaluation.
Defined.


Lemma processZipFile_reports_witness :
  Z.of_nat (length (processZipFile ascii_toLowerCase (Some scenario_A)
                      fresh_realm).1)
  = (2 + (Z.of_nat (length scenario_A) + 4) `div` 5)%Z.
Proof.
  apply (processZipFile_reports ascii_toLowerCase scenario_A fresh_realm).
  - done.
  - by vm_compute.
Defined.

(** ** The earlier revision of the walker *)

Lemma Rev1_empty_name_unknown :
  ([] ∉ Rev1Packer.TEXT_EXTENSIONS) ∧ ([] ∉ Rev1Packer.KNOWN_FILES).
Proof. split; by_evaluation. Qed.

Lemma removelast_snoc {A} (l : list A) x : removelast (l ++ [x]) = l.
Proof.
  induction l as [|y l IH]; [done|]. simpl. rewrite IH. by destruct l.
Qed.

Lemma units_total_snoc fs f :
  units_total (fs ++ [f])
  = (units_total fs + Z.of_nat (length (content f)))%Z.
Proof.
  unfold units_total.
  induction fs as [|g fs IH]; cbn [foldr app]; [lia|]. rewrite IH. lia.
Qed.

Section Rev1Extras.

Variable toLowerCase : jsstring → jsstring.
Hypothesis toLowerCase_empty : toLowerCase [] = [].

(** X15: the classifier of the earlier revision takes the whole path
    apart at its full stops. A path without one is a text file exactly
    when its lower case is itself the name of a text extension; so
    [Makefile] is none, nor is any file without extension in a directory.
    A path with one is a text file exactly when what follows the last full
    stop is not empty and either what precedes it is, in lower case, a
    known name, or what follows it is, in lower case, a text extension. *)
Theorem Rev1_isTextFile_parts (f : jsstring) :
  (dot ∉ f →
   Rev1Packer.isTextFile toLowerCase f
   = bool_decide (toLowerCase f ∈ Rev1Packer.TEXT_EXTENSIONS))
  ∧ (∀ before ext, f = before ++ dot :: ext → dot ∉ ext →
     Rev1Packer.isTextFile toLowerCase f
     = match toLowerCase ext with
       | [] => false
       | _ =>
           bool_decide (toLowerCase before ∈ Rev1Packer.KNOWN_FILES)
           || bool_decide (toLowerCase ext ∈ Rev1Packer.TEXT_EXTENSIONS)
       end).
Proof.
  destruct Rev1_empty_name_unknown as [Htext Hknown]. split.
  - intros Hdot. unfold Rev1Packer.isTextFile.
    rewrite split_no_sep by done. simpl. rewrite toLowerCase_empty.
    rewrite (bool_decide_eq_false_2 _ Hknown).
    destruct (toLowerCase f); [|done].
    by rewrite (bool_decide_eq_false_2 _ Htext).
  - intros before ext -> Hdot. unfold Rev1Packer.isTextFile.
    rewrite split_app_sep, (split_no_sep dot ext) by done.
    rewrite last_snoc, removelast_snoc, join_split. simpl.
    destruct (toLowerCase ext); [done|].
    by destruct (bool_decide (toLowerCase before ∈ _)).
Qed.

End Rev1Extras.

Section Rev1WalkerExtras.

Variable toLowerCase : jsstring → jsstring.

(** What a turn of the loop keeps: the count goes up by one, a report is
    added at every tenth count, the files and the paths go together, and
    the size is the number of code units of the contents. *)
Lemma Rev1_walk_entry_invariant n w e :
  let w' := final_walk (Rev1Packer.walk_entry toLowerCase n w e) in
  w_processedCount w' = (w_processedCount w + 1)%Z
  ∧ length (w_progress w')
    = (length (w_progress w)
       + if decide ((w_processedCount w + 1) `mod` 10 = 0)%Z then 1 else 0)%nat
  ∧ (w_totalSize w' - units_total (w_files w')
     = w_totalSize w - units_total (w_files w))%Z
  ∧ (∀ w1, Rev1Packer.walk_entry toLowerCase n w e = inl w1 →
           w_paths w = path <$> w_files w →
           w_paths w1 = path <$> w_files w1).
Proof.
  unfold Rev1Packer.walk_entry.
  destruct (decide _) as [Hmod|Hmod];
    [rewrite (proj2 (Z.eqb_eq _ _) Hmod)|rewrite (proj2 (Z.eqb_neq _ _) Hmod)];
    destruct (dir e), (Rev1.shouldIgnore (name e)),
      (Rev1Packer.isTextFile toLowerCase (name e)), (async_string e);
    cbn [final_walk w_processedCount w_progress w_totalSize w_files w_paths];
    rewrite ?units_total_snoc, ?length_app; cbn [length content];
    (split; [done|split; [lia|split; [lia|]]]);
    intros w1 [= <-]; cbn [w_files w_paths]; try done;
    intros ->; by rewrite fmap_app.
Qed.

Lemma Rev1_walk_entries_invariant n entries : ∀ w w',
  Rev1Packer.walk_entries toLowerCase n entries w = inl w' →
  w_processedCount w' = (w_processedCount w + Z.of_nat (length entries))%Z
  ∧ length (w_progress w')
    = (length (w_progress w)
       + length (filter (λ k, (k `mod` 10 = 0)%Z)
                   (seqZ (w_processedCount w + 1)
                      (Z.of_nat (length entries)))))%nat
  ∧ (w_totalSize w' - units_total (w_files w')
     = w_totalSize w - units_total (w_files w))%Z
  ∧ (w_paths w = path <$> w_files w → w_paths w' = path <$> w_files w').
Proof.
  induction entries as [|e entries IH]; intros w w'.
  - intros [= <-]. cbn [length]. rewrite seqZ_nil by lia.
    rewrite filter_nil. cbn [length]. repeat split; try lia. done.
  - cbn [Rev1Packer.walk_entries].
    pose proof (Rev1_walk_entry_invariant n w e) as (Hc & Hl & Hs & Hp).
    destruct (Rev1Packer.walk_entry toLowerCase n w e) as [w1|w1]; [|done].
    cbn [final_walk] in Hc, Hl, Hs.
    intros Hrest. apply IH in Hrest as (Hc' & Hl' & Hs' & Hp').
    split; [cbn [length]; lia|]. split; [|split; [lia|]].
    + rewrite Hl', Hl, Hc.
      rewrite (seqZ_cons _ (Z.of_nat (length (e :: entries))))
        by (cbn [length]; lia).
      rewrite filter_cons.
      replace (Z.pred (Z.of_nat (length (e :: entries))))
        with (Z.of_nat (length entries)) by (cbn [length]; lia).
      replace (Z.succ (w_processedCount w + 1))
        with (w_processedCount w + 1 + 1)%Z by lia.
      destruct (decide _); cbn [length]; lia.
    + intros Hw. apply Hp'. by apply Hp.
Qed.

(** X16: what a run of the earlier revision returns. The size is the
    number of UTF-16 code units of the contents of the files returned, not
    their number of bytes; the count is the number of the files; the tree
    is the tree of the paths of the files; and the estimate is the size
    over four, rounded up. *)
Theorem Rev1_processZipFile_stats
    (loaded : option (list ZipObject)) (r : ZipResult) :
  (Rev1Packer.processZipFile toLowerCase loaded).2 = Returns r →
  totalSize (stats r) = units_total (files r)
  ∧ fileCount (stats r) = Z.of_nat (length (files r))
  ∧ tokenEstimate (stats r) = token_estimate (units_total (files r))
  ∧ tree r = Rev1Packer.generateTreeString (path <$> files r).
Proof.
  destruct loaded as [entries|]; [|done]. unfold Rev1Packer.processZipFile.
  destruct (Rev1Packer.walk_entries _ _ _ _) as [w|w] eqn:Hwalk; [|done].
  intros [= <-]. cbn [files stats tree totalSize fileCount tokenEstimate].
  apply Rev1_walk_entries_invariant in Hwalk as (_ & _ & Hs & Hp).
  change (w_totalSize Rev1Packer.walk_start) with 0%Z in Hs.
  change (units_total (w_files Rev1Packer.walk_start)) with 0%Z in Hs.
  assert (Hsize : w_totalSize w = units_total (w_files w)) by lia.
  rewrite Hsize, Hp by done. done.
Qed.

(** X17: a run of the earlier revision that visits all the [n] entries
    of an archive calls [onProgress] two times before the loop and then
    once for every tenth entry: 2 + floor(n / 10) times. The last entry is
    reported only when [n] is a multiple of ten, and an archive of fewer
    than ten entries gets no report from the loop. *)
Theorem Rev1_processZipFile_reports (fileEntries : list ZipObject) :
  (Rev1Packer.processZipFile toLowerCase (Some fileEntries)).2
  ≠ Throws Rejected →
  Z.of_nat
    (length (Rev1Packer.processZipFile toLowerCase (Some fileEntries)).1)
  = (2 + Z.of_nat (length fileEntries) `div` 10)%Z.
Proof.
  unfold Rev1Packer.processZipFile.
  destruct (Rev1Packer.walk_entries _ _ _ _) as [w|w] eqn:Hwalk; [|done].
  intros _. cbn [fst].
  apply Rev1_walk_entries_invariant in Hwalk as (_ & Hl & _).
  rewrite Hl.
  change (w_processedCount Rev1Packer.walk_start + 1)%Z with 1%Z.
  rewrite Nat2Z.inj_add, count_multiples by lia.
  by change (Z.of_nat (length (w_progress Rev1Packer.walk_start))) with 2%Z.
Qed.

End Rev1WalkerExtras.

Lemma Rev1_isTextFile_parts_witness :
  Rev1Packer.isTextFile ascii_toLowerCase (js "src/Makefile")
  = bool_decide (ascii_toLowerCase (js "src/Makefile")
                 ∈ Rev1Packer.TEXT_EXTENSIONS).
Proof.
  apply (Rev1_isTextFile_parts ascii_toLowerCase eq_refl (js "src/Makefile")).
  by_evaluation.
Defined.

Lemma Rev1_processZipFile_stats_witness :
  ∃ r, (Rev1Packer.processZipFile ascii_toLowerCase (Some scenario_A)).2
       = Returns r
       ∧ totalSize (stats r) = units_total (files r).
Proof.
  eexists. split; [vm_compute; reflexivity|].
  apply (Rev1_processZipFile_stats ascii_toLowerCase (Some scenario_A)).
  vm_compute. reflexivity.
Defined.

Lemma Rev1_processZipFile_reports_witness :
  Z.of_nat
    (length (Rev1Packer.processZipFile ascii_toLowerCase (Some scenario_A)).1)
  = (2 + Z.of_nat (length scenario_A) `div` 10)%Z.
Proof.
  apply (Rev1_processZipFile_reports ascii_toLowerCase scenario_A).
  by vm_compute.
Defined.

(** ** The tree renderer and the prototype of objects *)

Lemma add_paths_app paths1 paths2 h :
  add_paths (paths1 ++ paths2) h = bind (add_paths paths1 h) (add_paths paths2).
Proof.
  revert h. induction paths1 as [|path paths1 IH]; intros h; [done|].
  cbn [add_paths app]. destruct (add_path h path) as [h'| |]; [|done..].
  cbn [bind]. apply IH.
Qed.

(** The nested mapping of plain paths has no key [__proto__]. *)
Lemma trie_of_no_PROTO paths :
  Forall plain_path paths → own (trie_of paths) !! PROTO = None.
Proof.
  intros Hplain. unfold trie_of.
  assert (Hstart : own (Node ∅) !! PROTO = None) by done.
  revert Hstart. generalize (Node ∅).
  induction Hplain as [|path paths Hpath _ IH]; intros t Ht; [done|].
  cbn [foldl]. apply IH.
  destruct (split slash path) as [|part parts] eqn:Hsplit; [done|].
  cbn [trie_insert own]. rewrite lookup_insert_ne; [done|].
  intros Heq. destruct (Hpath part) as [Hne _]; [|done].
  rewrite Hsplit. by left.
Qed.

(** X18: a path whose first two segments are both [__proto__] makes the
    call throw a [TypeError]: the first segment leads to
    [Object.prototype], where the second finds [null] and the assignment
    that follows is refused. After plain paths, in a realm that has added
    nothing to [Object.prototype], the call throws whatever paths come
    next, and nothing is rendered. *)
Theorem generateTreeString_throws
    (before after : list jsstring) (path : jsstring) :
  Forall plain_path before →
  [PROTO; PROTO] `prefix_of` split slash path →
  generateTreeString (before ++ path :: after) fresh_realm
  = TypeError {| tree_root := trie_of before; proto_added := fresh_realm |}.
Proof.
  intros Hplain [parts Hparts].
  unfold generateTreeString, fresh_realm.
  rewrite add_paths_app, add_paths_plain by done. cbn [bind add_paths].
  fold (trie_of before). unfold add_path. rewrite Hparts.
  set (h := {| tree_root := trie_of before; proto_added := Node ∅ |}).
  assert (Hfirst : visit (h, InTree []) PROTO = Normal (h, InProto [])).
  { unfold visit, inherited. cbn [get_at tree_root h].
    rewrite trie_of_no_PROTO by done.
    by rewrite bool_decide_eq_true_2 by done. }
  assert (Hsecond : visit (h, InProto []) PROTO = TypeError h).
  { unfold visit. cbn [proto_added h own]. rewrite lookup_empty.
    by rewrite bool_decide_eq_true_2 by done. }
  change ([PROTO; PROTO] ++ parts) with (PROTO :: PROTO :: parts).
  rewrite visit_all_cons, Hfirst. cbn [bind].
  by rewrite visit_all_cons, Hsecond.
Qed.

(** ** The page *)

Lemma ascii_lower_unit_cases c :
  (ascii_lower_unit c = 0x2E ↔ c = 0x2E)
  ∧ (ascii_lower_unit c = 0x7A ↔ c = 0x7A ∨ c = 0x5A)
  ∧ (ascii_lower_unit c = 0x69 ↔ c = 0x69 ∨ c = 0x49)
  ∧ (ascii_lower_unit c = 0x70 ↔ c = 0x70 ∨ c = 0x50).
Proof. unfold ascii_lower_unit. leb_cases; lia. Qed.

Lemma ends_in_zip_spec fileName :
  ends_in_zip fileName = true
  ↔ ∃ stem ext, fileName = stem ++ ext ∧ ascii_toLowerCase ext = js ".zip".
Proof.
  unfold ends_in_zip. split.
  - destruct (reverse fileName) as [|p [|i [|z [|d rest]]]] eqn:Hrev;
      try discriminate.
    intros Hzip.
    apply andb_true_iff in Hzip as [Hzip Hp].
    apply andb_true_iff in Hzip as [Hzip Hi].
    apply andb_true_iff in Hzip as [Hd Hz].
    apply orb_true_iff in Hp, Hi, Hz. rewrite !N.eqb_eq in Hp, Hi, Hz.
    apply N.eqb_eq in Hd.
    exists (reverse rest), [d; z; i; p]. split.
    + apply (inj reverse). rewrite Hrev, reverse_app, reverse_involutive.
      done.
    + change (js ".zip") with [0x2E; 0x7A; 0x69; 0x70].
      unfold ascii_toLowerCase. cbn [fmap list_fmap].
      pose proof (ascii_lower_unit_cases d) as (Hd' & _).
      pose proof (ascii_lower_unit_cases z) as (_ & Hz' & _).
      pose proof (ascii_lower_unit_cases i) as (_ & _ & Hi' & _).
      pose proof (ascii_lower_unit_cases p) as (_ & _ & _ & Hp').
      by rewrite (proj2 Hd' Hd), (proj2 Hz' Hz), (proj2 Hi' Hi),
        (proj2 Hp' Hp).
  - intros (stem & ext & -> & Hext).
    change (js ".zip") with [0x2E; 0x7A; 0x69; 0x70] in Hext.
    destruct ext as [|d [|z [|i [|p [|? ?]]]]]; try discriminate.
    injection Hext as Hd Hz Hi Hp.
    rewrite reverse_app. change (reverse [d; z; i; p]) with [p; i; z; d].
    cbn [app].
    pose proof (ascii_lower_unit_cases d) as (Hd' & _).
    pose proof (ascii_lower_unit_cases z) as (_ & Hz' & _).
    pose proof (ascii_lower_unit_cases i) as (_ & _ & Hi' & _).
    pose proof (ascii_lower_unit_cases p) as (_ & _ & _ & Hp').
    apply Hd' in Hd. apply Hz' in Hz. apply Hi' in Hi. apply Hp' in Hp.
    apply andb_true_iff; split; [apply andb_true_iff; split;
      [apply andb_true_iff; split|]|];
      rewrite ?orb_true_iff, !N.eqb_eq; done.
Qed.

(** X19: the name of the repository is the name of the file without its
    ending [.zip], in whatever case the letters of the ending are; a name
    that does not end so is the name of the repository as it is. Only one
    ending is taken off. *)
Theorem strip_zip_ending :
  (∀ stem ext, ascii_toLowerCase ext = js ".zip" →
               strip_zip (stem ++ ext) = stem)
  ∧ (∀ fileName,
       (∀ stem ext, fileName = stem ++ ext →
                    ascii_toLowerCase ext ≠ js ".zip") →
       strip_zip fileName = fileName).
Proof.
  split.
  - intros stem ext Hext. unfold strip_zip.
    rewrite (proj2 (ends_in_zip_spec (stem ++ ext))) by by exists stem, ext.
    apply (f_equal length) in Hext. unfold ascii_toLowerCase in Hext.
    rewrite length_fmap in Hext. change (length (js ".zip")) with 4%nat in Hext.
    rewrite length_app, Hext.
    replace (length stem + 4 - 4)%nat with (length stem) by lia.
    by rewrite take_app_length.
  - intros fileName Hnone. unfold strip_zip.
    destruct (ends_in_zip fileName) eqn:Hzip; [|done].
    apply ends_in_zip_spec in Hzip as (stem & ext & Hname & Hext).
    destruct (Hnone stem ext Hname Hext).
Qed.



Section PageExtras.

Variable toLowerCase : jsstring → jsstring.



End PageExtras.

Lemma generateTreeString_throws_witness :
  generateTreeString
    ([js "src/a.ts"] ++ js "__proto__/__proto__/x.ts" :: [js "b.md"])
    fresh_realm
  = TypeError {| tree_root := trie_of [js "src/a.ts"];
                 proto_added := fresh_realm |}.
Proof.
  apply (generateTreeString_throws [js "src/a.ts"] [js "b.md"]
           (js "__proto__/__proto__/x.ts")).
  - plain_paths.
  - by exists [js "x.ts"].
Defined.


